(** * The follower controller of a shard (server/follower_controller.go)

    A shallow embedding of the follower-side replication state machine:
    the epoch and status guards, the [Fence] and [Truncate] handlers, the
    [AddEntries] ingestion loop with its per-request step [addEntry], and
    [Close].

    The handlers run under the controller's mutex and mutate the
    controller in place; a Go handler that returns an error keeps every
    assignment it made before the error.  They are embedded in a small
    monad [FC] that threads the controller, returns a value or an error,
    keeps the state on the error path, and records the calls made to the
    two collaborators (the WAL and the KV store). *)

From Stdlib Require Import String.
From Stdlib Require Import NArith List Bool Lia Sorted.
From Stdlib Require Import Strings.Byte.
Import ListNotations.

Local Open Scope N_scope.

(** ** Scalars, errors, status *)

Definition uint32 := N.
Definition uint64 := N.

(** [const MaxEpoch = math.MaxUint64] *)
Definition MaxEpoch : uint64 := 18446744073709551615.

(** A Go [error] value.  The two sentinels of the file are constructors;
    [errors.Wrapf] keeps the sentinel as the cause of the wrapped error, and
    a wrapped error is identified with its cause.  Everything a collaborator
    (WAL, KV store, protobuf, transport) returns is an [ErrorOther]. *)
Inductive error : Type :=
| ErrorInvalidEpoch
| ErrorInvalidStatus
| ErrorOther (msg : string).

(** The outcome of a Go function returning [(T, error)]. *)
Inductive result (A : Type) : Type :=
| Ok (a : A)
| Err (e : error).
Arguments Ok {A} a.
Arguments Err {A} e.

Definition is_Err {A} (r : result A) : bool :=
  match r with Ok _ => false | Err _ => true end.

(** Modelled from the spec: the declaration of [Status] is not part of the
    sources at hand.  A controller is born [NotMember], is [Fenced] by an
    election and is a [Follower] once it replicates. *)
Inductive Status : Type := NotMember | Fenced | Follower.

Definition Status_eqb (a b : Status) : bool :=
  match a, b with
  | NotMember, NotMember | Fenced, Fenced | Follower, Follower => true
  | _, _ => false
  end.

(** ** Entry ids *)

(** Modelled from the spec: the [EntryId] struct, [EntryIdFromProto] and
    [toProto] are declared in a file of the package that is not part of the
    sources at hand.  An entry id is a pair (epoch, offset) of [uint64],
    ordered lexicographically; the zero value [EntryId{}] is (0,0). *)
Record EntryId : Type := mkEntryId { id_epoch : uint64; id_offset : uint64 }.

Definition EntryId_zero : EntryId := mkEntryId 0 0.

Definition EntryId_ltb (a b : EntryId) : bool :=
  (id_epoch a <? id_epoch b)
  || ((id_epoch a =? id_epoch b) && (id_offset a <? id_offset b)).

Definition EntryId_leb (a b : EntryId) : bool :=
  (id_epoch a <? id_epoch b)
  || ((id_epoch a =? id_epoch b) && (id_offset a <=? id_offset b)).

Definition EntryId_lt (a b : EntryId) : Prop := EntryId_ltb a b = true.
Definition EntryId_le (a b : EntryId) : Prop := EntryId_leb a b = true.

Definition EntryId_max (a b : EntryId) : EntryId :=
  if EntryId_leb a b then b else a.

(** ** Wire messages *)

(** Modelled from the spec: the generated message types of package [proto]
    are not part of the sources at hand.  The fields are those of the wire
    protocol, under the names the controller reads and writes them by. *)

Module proto.

Record EntryId : Type :=
  { EntryId_Epoch : uint64; EntryId_Offset : uint64 }.

Record LogEntry : Type :=
  { LogEntry_EntryId : EntryId; LogEntry_Value : list byte }.

Record FenceRequest : Type := { FenceRequest_Epoch : uint64 }.

Record FenceResponse : Type :=
  { FenceResponse_Epoch : uint64; FenceResponse_HeadIndex : EntryId }.

Record TruncateRequest : Type :=
  { TruncateRequest_Epoch : uint64; TruncateRequest_HeadIndex : EntryId }.

Record TruncateResponse : Type :=
  { TruncateResponse_Epoch : uint64; TruncateResponse_HeadIndex : EntryId }.

(** The handler dereferences [req.Entry], [req.Entry.EntryId] and
    [req.CommitIndex]; the three sub-messages are taken as present. *)
Record AddEntryRequest : Type :=
  { AddEntryRequest_Epoch : uint64;
    AddEntryRequest_Entry : LogEntry;
    AddEntryRequest_CommitIndex : EntryId }.

(** [EntryId] is a pointer the handler sets to [nil] when it rejects. *)
Record AddEntryResponse : Type :=
  { AddEntryResponse_Epoch : uint64;
    AddEntryResponse_EntryId : option EntryId;
    AddEntryResponse_InvalidEpoch : bool }.

End proto.

Definition EntryIdFromProto (id : proto.EntryId) : EntryId :=
  mkEntryId (proto.EntryId_Epoch id) (proto.EntryId_Offset id).

Definition toProto (id : EntryId) : proto.EntryId :=
  {| proto.EntryId_Epoch := id_epoch id; proto.EntryId_Offset := id_offset id |}.

(** [type MessageWithEpoch interface { GetEpoch() uint64 }] *)
Class MessageWithEpoch (M : Type) : Type := { GetEpoch : M -> uint64 }.

#[export] Instance FenceRequest_MessageWithEpoch
  : MessageWithEpoch proto.FenceRequest :=
  { GetEpoch := proto.FenceRequest_Epoch }.

#[export] Instance TruncateRequest_MessageWithEpoch
  : MessageWithEpoch proto.TruncateRequest :=
  { GetEpoch := proto.TruncateRequest_Epoch }.

#[export] Instance AddEntryRequest_MessageWithEpoch
  : MessageWithEpoch proto.AddEntryRequest :=
  { GetEpoch := proto.AddEntryRequest_Epoch }.

(** ** The guards *)

Definition checkEpochLaterIn {M} `{MessageWithEpoch M}
    (req : M) (expected : uint64) : option error :=
  if GetEpoch req <=? expected then Some ErrorInvalidEpoch else None.

Definition checkEpochEqualIn {M} `{MessageWithEpoch M}
    (req : M) (expected : uint64) : option error :=
  if negb (GetEpoch req =? expected) then Some ErrorInvalidEpoch else None.

Definition checkStatus (expected actual : Status) : option error :=
  if negb (Status_eqb actual expected) then Some ErrorInvalidStatus else None.

(** ** The collaborators *)

(** The [Wal] interface, as the controller uses it.  A method that returns
    [error] yields [Some e] for [e != nil]; a method may change the log
    whether or not it fails.  [ReadSync] hands each entry it visits to the
    callback; the callback of [addEntry] closes over the KV store, so the
    state [A] it mutates is threaded through the visit. *)
Class Wal (W : Type) : Type :=
  { WalClose : W -> option error * W;
    Append : W -> proto.LogEntry -> option error * W;
    ReadSync : forall {A : Type}, W -> EntryId -> EntryId ->
               (proto.LogEntry -> A -> option error * A) -> A ->
               option error * A;
    GetHighestEntryOfEpoch : W -> uint64 -> result EntryId;
    TruncateLog : W -> EntryId -> result EntryId * W }.

(** [kv.DB], over the type [WR] of a decoded [proto.WriteRequest]. *)
Class DB (D WR : Type) : Type :=
  { DBClose : D -> option error * D;
    ProcessWrite : D -> WR -> option error * D }.

(** A call that reached a collaborator. *)
Inductive Call (WR : Type) : Type :=
| CallWalAppend (entry : proto.LogEntry)
| CallWalTruncateLog (headIndex : EntryId)
| CallWalReadSync (from to : EntryId)
| CallWalClose
| CallDBProcessWrite (br : WR)
| CallDBClose.
Arguments CallWalAppend {WR} entry.
Arguments CallWalTruncateLog {WR} headIndex.
Arguments CallWalReadSync {WR} from to.
Arguments CallWalClose {WR}.
Arguments CallDBProcessWrite {WR} br.
Arguments CallDBClose {WR}.

Definition isWalAppend {WR} (c : Call WR) : bool :=
  match c with CallWalAppend _ => true | _ => false end.

Definition isWalCall {WR} (c : Call WR) : bool :=
  match c with
  | CallWalAppend _ | CallWalTruncateLog _ | CallWalReadSync _ _
  | CallWalClose => true
  | _ => false
  end.

Definition isDBCall {WR} (c : Call WR) : bool := negb (isWalCall c).

(** ** The controller *)

Section Controller.

Context {W D WR : Type} {walI : Wal W} {dbI : DB D WR}.

(** [pb.Unmarshal(entry.Value, br)] *)
Variable Unmarshal : list byte -> result WR.

(** [type followerController struct]; the mutex and the logger carry no
    state of the protocol. *)
Record followerController : Type :=
  { shardId : uint32;
    epoch : uint64;
    commitIndex : EntryId;
    headIndex : EntryId;
    status : Status;
    wal : W;
    db : D;
    closing : bool }.

Definition set_epoch (v : uint64) (fc : followerController) :=
  {| shardId := shardId fc; epoch := v; commitIndex := commitIndex fc;
     headIndex := headIndex fc; status := status fc; wal := wal fc;
     db := db fc; closing := closing fc |}.

Definition set_commitIndex (v : EntryId) (fc : followerController) :=
  {| shardId := shardId fc; epoch := epoch fc; commitIndex := v;
     headIndex := headIndex fc; status := status fc; wal := wal fc;
     db := db fc; closing := closing fc |}.

Definition set_headIndex (v : EntryId) (fc : followerController) :=
  {| shardId := shardId fc; epoch := epoch fc; commitIndex := commitIndex fc;
     headIndex := v; status := status fc; wal := wal fc;
     db := db fc; closing := closing fc |}.

Definition set_status (v : Status) (fc : followerController) :=
  {| shardId := shardId fc; epoch := epoch fc; commitIndex := commitIndex fc;
     headIndex := headIndex fc; status := v; wal := wal fc;
     db := db fc; closing := closing fc |}.

Definition set_wal (v : W) (fc : followerController) :=
  {| shardId := shardId fc; epoch := epoch fc; commitIndex := commitIndex fc;
     headIndex := headIndex fc; status := status fc; wal := v;
     db := db fc; closing := closing fc |}.

Definition set_db (v : D) (fc : followerController) :=
  {| shardId := shardId fc; epoch := epoch fc; commitIndex := commitIndex fc;
     headIndex := headIndex fc; status := status fc; wal := wal fc;
     db := v; closing := closing fc |}.

(** *** The handler monad *)

(** What a handler leaves behind: its return value or error, the
    controller as it is when the handler returns, and the collaborator
    calls it made, oldest first. *)
Record Outcome (A : Type) : Type :=
  { returned : result A;
    after : followerController;
    calls : list (Call WR) }.
Arguments returned {A} o.
Arguments after {A} o.
Arguments calls {A} o.

Definition FC (A : Type) : Type := followerController -> Outcome A.

Definition ret {A} (a : A) : FC A :=
  fun fc => {| returned := Ok a; after := fc; calls := [] |}.

Definition fail {A} (e : error) : FC A :=
  fun fc => {| returned := Err e; after := fc; calls := [] |}.

(** An error ends the handler; the controller keeps what was assigned. *)
Definition bind {A B} (m : FC A) (k : A -> FC B) : FC B :=
  fun fc =>
    match m fc with
    | {| returned := Err e; after := fc1; calls := c1 |} =>
        {| returned := Err e; after := fc1; calls := c1 |}
    | {| returned := Ok a; after := fc1; calls := c1 |} =>
        match k a fc1 with
        | {| returned := r; after := fc2; calls := c2 |} =>
            {| returned := r; after := fc2; calls := c1 ++ c2 |}
        end
    end.

Definition get : FC followerController :=
  fun fc => {| returned := Ok fc; after := fc; calls := [] |}.

Definition modify (f : followerController -> followerController) : FC unit :=
  fun fc => {| returned := Ok tt; after := f fc; calls := [] |}.

(** [if err := ...; err != nil { return nil, err }] *)
Definition check (r : option error) : FC unit :=
  match r with Some e => fail e | None => ret tt end.

Notation "x <- m ;; k" := (bind m (fun x => k))
  (at level 61, m at next level, right associativity).
Notation "m ;; k" := (bind m (fun _ => k))
  (at level 61, right associativity).

(** *** Calls to the collaborators *)

Definition walClose : FC unit :=
  fun fc =>
    let '(err, w) := WalClose (wal fc) in
    {| returned := match err with Some e => Err e | None => Ok tt end;
       after := set_wal w fc; calls := [CallWalClose] |}.

Definition dbClose : FC unit :=
  fun fc =>
    let '(err, d) := DBClose (db fc) in
    {| returned := match err with Some e => Err e | None => Ok tt end;
       after := set_db d fc; calls := [CallDBClose] |}.

Definition walAppend (entry : proto.LogEntry) : FC unit :=
  fun fc =>
    let '(err, w) := Append (wal fc) entry in
    {| returned := match err with Some e => Err e | None => Ok tt end;
       after := set_wal w fc; calls := [CallWalAppend entry] |}.

Definition walTruncateLog (id : EntryId) : FC EntryId :=
  fun fc =>
    let '(r, w) := TruncateLog (wal fc) id in
    {| returned := r; after := set_wal w fc;
       calls := [CallWalTruncateLog id] |}.

(** The callback [addEntry] passes to [ReadSync]: decode the entry's
    value and process it; [fc.db] and the writes that reached it are the
    state of the visit. *)
Definition applyEntry (entry : proto.LogEntry) (s : D * list WR)
    : option error * (D * list WR) :=
  match Unmarshal (proto.LogEntry_Value entry) with
  | Err e => (Some e, s)
  | Ok br =>
      let '(err, d) := ProcessWrite (fst s) br in
      (err, (d, snd s ++ [br]))
  end.

Definition walReadSync (from to : EntryId) : FC unit :=
  fun fc =>
    let '(err, (d, brs)) :=
      ReadSync (wal fc) from to applyEntry (db fc, []) in
    {| returned := match err with Some e => Err e | None => Ok tt end;
       after := set_db d fc;
       calls := CallWalReadSync from to :: map CallDBProcessWrite brs |}.

(** *** Construction and Close *)

(** [NewFollowerController]; [newDB] is the outcome of
    [kv.NewDB(shardId, kvFactory)]. *)
Definition NewFollowerController (shard : uint32) (w : W)
    (newDB : result D) : result followerController :=
  match newDB with
  | Err e => Err e
  | Ok d =>
      match GetHighestEntryOfEpoch w MaxEpoch with
      | Err e => Err e
      | Ok entryId =>
          Ok {| shardId := shard; epoch := 0;
                commitIndex := EntryId_zero; headIndex := entryId;
                status := NotMember; wal := w; db := d;
                closing := false |}
      end
  end.

Definition Close : FC unit :=
  walClose ;;
  dbClose ;;
  ret tt.

(** *** Fence *)

Definition Fence (req : proto.FenceRequest) : FC proto.FenceResponse :=
  fc <- get ;;
  check (checkEpochLaterIn req (epoch fc)) ;;
  modify (set_epoch (GetEpoch req)) ;;
  modify (set_status Fenced) ;;
  fc <- get ;;
  ret {| proto.FenceResponse_Epoch := epoch fc;
         proto.FenceResponse_HeadIndex := toProto (headIndex fc) |}.

(** *** Truncate *)

Definition Truncate (req : proto.TruncateRequest)
    : FC proto.TruncateResponse :=
  fc <- get ;;
  check (checkStatus Fenced (status fc)) ;;
  check (checkEpochEqualIn req (epoch fc)) ;;
  modify (set_status Follower) ;;
  modify (set_epoch (proto.TruncateRequest_Epoch req)) ;;
  headEntryId <-
    walTruncateLog (EntryIdFromProto (proto.TruncateRequest_HeadIndex req)) ;;
  modify (set_headIndex headEntryId) ;;
  ret {| proto.TruncateResponse_Epoch := proto.TruncateRequest_Epoch req;
         proto.TruncateResponse_HeadIndex := toProto headEntryId |}.

(** *** AddEntries *)

Definition addEntry (req : proto.AddEntryRequest)
    : FC proto.AddEntryResponse :=
  fc <- get ;;
  if negb (Status_eqb (status fc) Follower)
     && negb (Status_eqb (status fc) Fenced)
  then fail ErrorInvalidStatus
  else if GetEpoch req <? epoch fc
  then ret {| proto.AddEntryResponse_Epoch := proto.AddEntryRequest_Epoch req;
              proto.AddEntryResponse_EntryId := None;
              proto.AddEntryResponse_InvalidEpoch := true |}
  else
    modify (set_status Follower) ;;
    modify (set_epoch (proto.AddEntryRequest_Epoch req)) ;;
    walAppend (proto.AddEntryRequest_Entry req) ;;
    modify (set_headIndex
              (EntryIdFromProto
                 (proto.LogEntry_EntryId (proto.AddEntryRequest_Entry req)))) ;;
    fc <- get ;;
    let oldCommitIndex := commitIndex fc in
    modify (set_commitIndex
              (EntryIdFromProto (proto.AddEntryRequest_CommitIndex req))) ;;
    fc <- get ;;
    walReadSync oldCommitIndex (commitIndex fc) ;;
    fc <- get ;;
    ret {| proto.AddEntryResponse_Epoch := epoch fc;
           proto.AddEntryResponse_EntryId :=
             Some (proto.LogEntry_EntryId (proto.AddEntryRequest_Entry req));
           proto.AddEntryResponse_InvalidEpoch := false |}.

(** What the transport did with a stream when [AddEntries] returned: the
    responses it sent, oldest first, and the error that ended the loop. *)
Record StreamEnd : Type :=
  { sent : list proto.AddEntryResponse; ended : error }.

(** The loop of [AddEntries] over a stream that delivers the requests of
    [incoming] and then fails [stream.Recv] with [recvErr].  Each request
    comes with the outcome of the [stream.Send] of its response, should
    the loop get that far.  The loop only ever returns an error. *)
Fixpoint AddEntries (recvErr : error)
    (incoming : list (proto.AddEntryRequest * option error))
    (fc : followerController) : StreamEnd * followerController * list (Call WR) :=
  match incoming with
  | [] => ({| sent := []; ended := recvErr |}, fc, [])
  | (addEntryReq, sendErr) :: rest =>
      let o := addEntry addEntryReq fc in
      match returned o with
      | Err err => ({| sent := []; ended := err |}, after o, calls o)
      | Ok res =>
          match sendErr with
          | Some err => ({| sent := []; ended := err |}, after o, calls o)
          | None =>
              let '(s, fc', cs) := AddEntries recvErr rest (after o) in
              ({| sent := res :: sent s; ended := ended s |},
               fc', calls o ++ cs)
          end
      end
  end.

(** *** Accessors *)

(** [Epoch()] and [Status()] take the mutex and return the field.  The
    method [Status] shares its name with its result type and is [Status'] here. *)
Definition Epoch : FC uint64 :=
  fc <- get ;;
  ret (epoch fc).

Definition Status' : FC Status :=
  fc <- get ;;
  ret (status fc).

(** *** Sequences of calls *)

(** One call on the controller, as the RPC layer delivers it.  A request of
    an [AddEntries] stream is a call of its own: the mutex is taken per
    request, so other handlers run between two requests of a stream. *)
Inductive Op : Type :=
| OpFence (req : proto.FenceRequest)
| OpTruncate (req : proto.TruncateRequest)
| OpAddEntry (req : proto.AddEntryRequest)
| OpClose.

(** The controller once the call has returned. *)
Definition step (op : Op) (fc : followerController) : followerController :=
  match op with
  | OpFence req => after (Fence req fc)
  | OpTruncate req => after (Truncate req fc)
  | OpAddEntry req => after (addEntry req fc)
  | OpClose => after (Close fc)
  end.

Definition run (ops : list Op) (fc : followerController) : followerController :=
  fold_left (fun s op => step op s) ops fc.

(** The controller after each call of the sequence, in order. *)
Fixpoint observed (ops : list Op) (fc : followerController)
    : list followerController :=
  match ops with
  | [] => []
  | op :: rest => step op fc :: observed rest (step op fc)
  end.

(** A call keeps to the commit discipline when it cannot move the head
    below the commit index: an AddEntry request carries a commit index no
    greater than the id of its entry, and the head the WAL reports to a
    Truncate is no smaller than the commit index. *)
Definition keepsCommit (op : Op) (fc : followerController) : bool :=
  match op with
  | OpAddEntry req =>
      EntryId_leb
        (EntryIdFromProto (proto.AddEntryRequest_CommitIndex req))
        (EntryIdFromProto
           (proto.LogEntry_EntryId (proto.AddEntryRequest_Entry req)))
  | OpTruncate req =>
      match fst (TruncateLog (wal fc)
                   (EntryIdFromProto (proto.TruncateRequest_HeadIndex req))) with
      | Ok h => EntryId_leb (commitIndex fc) h
      | Err _ => true
      end
  | OpFence _ | OpClose => true
  end.

Fixpoint allKeepCommit (ops : list Op) (fc : followerController) : bool :=
  match ops with
  | [] => true
  | op :: rest => keepsCommit op fc && allKeepCommit rest (step op fc)
  end.

(** The calls a call on the controller makes to the WAL and the KV store. *)
Definition made (op : Op) (fc : followerController) : list (Call WR) :=
  match op with
  | OpFence req => calls (Fence req fc)
  | OpTruncate req => calls (Truncate req fc)
  | OpAddEntry req => calls (addEntry req fc)
  | OpClose => calls (Close fc)
  end.

End Controller.

Arguments followerController : clear implicits.
Arguments Outcome : clear implicits.
Arguments returned {W D WR A} o.
Arguments after {W D WR A} o.
Arguments calls {W D WR A} o.
Arguments Op : clear implicits.

(** ** Entries of a log and the range of a read *)

Definition entryId (e : proto.LogEntry) : EntryId :=
  EntryIdFromProto (proto.LogEntry_EntryId e).

(** [from < id <= to] *)
Definition inRange (from to : EntryId) (e : proto.LogEntry) : bool :=
  EntryId_ltb from (entryId e) && EntryId_leb (entryId e) to.

(** Hand the entries to the callback in order, stopping at the first error. *)
Fixpoint visitAll {A} (visit : proto.LogEntry -> A -> option error * A)
    (l : list proto.LogEntry) (a : A) : option error * A :=
  match l with
  | [] => (None, a)
  | e :: rest =>
      match visit e a with
      | (Some err, a') => (Some err, a')
      | (None, a') => visitAll visit rest a'
      end
  end.

(** ** An in-memory WAL and KV store *)

(** Modelled from the spec: no implementation of [Wal] is part of the
    sources at hand.  The log is the list of the appended entries, oldest
    first.  [append] persists the entry; [truncate] removes every entry
    strictly after the given id and returns the new physical head;
    [read_sync] visits the entries with [from < id <= to], stopping at the
    first error of the visitor; the highest entry at or below an epoch is
    the greatest id among the entries of such epochs, (0,0) for none.  A
    closed log refuses every call. *)
Record MemWal : Type := { log : list proto.LogEntry; closed : bool }.

Definition ErrWalClosed : error := ErrorOther "wal: closed".

Definition highest (l : list proto.LogEntry) : EntryId :=
  fold_left (fun m e => EntryId_max m (entryId e)) l EntryId_zero.

#[export] Instance MemWal_Wal : Wal MemWal :=
  { WalClose w :=
      if closed w then (Some ErrWalClosed, w)
      else (None, {| log := log w; closed := true |});
    Append w e :=
      if closed w then (Some ErrWalClosed, w)
      else (None, {| log := log w ++ [e]; closed := false |});
    ReadSync A w from to visit a :=
      if closed w then (Some ErrWalClosed, a)
      else visitAll visit (filter (inRange from to) (log w)) a;
    GetHighestEntryOfEpoch w e :=
      if closed w then Err ErrWalClosed
      else Ok (highest (filter (fun x => id_epoch (entryId x) <=? e) (log w)));
    TruncateLog w head :=
      if closed w then (Err ErrWalClosed, w)
      else
        let kept := filter (fun e => EntryId_leb (entryId e) head) (log w) in
        (Ok (highest kept), {| log := kept; closed := false |}) }.

(** Modelled from the spec: no implementation of [kv.DB] is part of the
    sources at hand.  The store keeps the write batches it processed, in
    the order it processed them. *)
Definition MemDB : Type := list (list byte).

#[export] Instance MemDB_DB : DB MemDB (list byte) :=
  { DBClose d := (None, d);
    ProcessWrite d br := (None, d ++ [br]) }.

(** A write batch travels as its own bytes. *)
Definition rawUnmarshal (value : list byte) : result (list byte) := Ok value.

Definition MemController : Type := followerController MemWal MemDB.

Definition emptyWal : MemWal := {| log := []; closed := false |}.

Definition eid (e o : N) : proto.EntryId :=
  {| proto.EntryId_Epoch := e; proto.EntryId_Offset := o |}.

Definition entry (e o : N) (value : list byte) : proto.LogEntry :=
  {| proto.LogEntry_EntryId := eid e o; proto.LogEntry_Value := value |}.

Definition batchA : list byte := [x41].
Definition batchB : list byte := [x42].

(** A controller as [NewFollowerController] makes it over an empty log. *)
Definition fresh : MemController :=
  {| shardId := 0; epoch := 0; commitIndex := EntryId_zero;
     headIndex := EntryId_zero; status := NotMember; wal := emptyWal;
     db := []; closing := false |}.

(** Fenced at epoch 5 over the log (4,6), (4,7), (4,10). *)
Definition fenced5 : MemController :=
  {| shardId := 0; epoch := 5; commitIndex := EntryId_zero;
     headIndex := mkEntryId 4 10; status := Fenced;
     wal := {| log := [entry 4 6 batchA; entry 4 7 batchB; entry 4 10 batchA];
               closed := false |};
     db := []; closing := false |}.

(** Following at epoch 5, head (4,7), nothing committed. *)
Definition follower5 : MemController :=
  {| shardId := 0; epoch := 5; commitIndex := EntryId_zero;
     headIndex := mkEntryId 4 7; status := Follower;
     wal := {| log := [entry 4 6 batchA; entry 4 7 batchB]; closed := false |};
     db := []; closing := false |}.

Definition addReq (ep : N) (e : proto.LogEntry) (commit : proto.EntryId)
    : proto.AddEntryRequest :=
  {| proto.AddEntryRequest_Epoch := ep;
     proto.AddEntryRequest_Entry := e;
     proto.AddEntryRequest_CommitIndex := commit |}.

Definition fenceReq (ep : N) : proto.FenceRequest :=
  {| proto.FenceRequest_Epoch := ep |}.

Definition truncateReq (ep : N) (head : proto.EntryId) : proto.TruncateRequest :=
  {| proto.TruncateRequest_Epoch := ep; proto.TruncateRequest_HeadIndex := head |}.


(** ** The responses of addEntry *)

Abbreviation entryOf req := (proto.AddEntryRequest_Entry req).
Abbreviation entryIdOf req :=
  (proto.LogEntry_EntryId (proto.AddEntryRequest_Entry req)).
Abbreviation commitOf req :=
  (EntryIdFromProto (proto.AddEntryRequest_CommitIndex req)).

(** The answer to a request from a stale leader. *)
Definition rejection (req : proto.AddEntryRequest) : proto.AddEntryResponse :=
  {| proto.AddEntryResponse_Epoch := proto.AddEntryRequest_Epoch req;
     proto.AddEntryResponse_EntryId := None;
     proto.AddEntryResponse_InvalidEpoch := true |}.

(** The answer to a request that was appended and applied. *)
Definition acceptance (req : proto.AddEntryRequest) : proto.AddEntryResponse :=
  {| proto.AddEntryResponse_Epoch := proto.AddEntryRequest_Epoch req;
     proto.AddEntryResponse_EntryId := Some (entryIdOf req);
     proto.AddEntryResponse_InvalidEpoch := false |}.

(** [invalid_epoch] is set exactly when the entry id is absent. *)
Definition flagMatchesId (resp : proto.AddEntryResponse) : Prop :=
  proto.AddEntryResponse_InvalidEpoch resp = true
  <-> proto.AddEntryResponse_EntryId resp = None.

(** ** Controllers and requests to run the handlers on *)

(** [fenced5] once closed: its log refuses every call. *)
Definition fenced5closed : MemController :=
  after (Close (WR := list byte) fenced5).

(** A new controller once closed. *)
Definition freshClosed : MemController :=
  after (Close (WR := list byte) fresh).

(** A leader elected at epoch 5 that truncates to nothing and streams two
    entries, committing the first with the second. *)
Definition orderlySession : list Op :=
  [ OpFence (fenceReq 5);
    OpTruncate (truncateReq 5 (eid 0 0));
    OpAddEntry (addReq 5 (entry 5 0 batchA) (eid 0 0));
    OpAddEntry (addReq 5 (entry 5 1 batchB) (eid 5 0)) ].

(** A leader elected at epoch 5 whose first entry (5,0) comes with the
    commit index (5,1). *)
Definition hastySession : list Op :=
  [ OpFence (fenceReq 5);
    OpAddEntry (addReq 5 (entry 5 0 batchA) (eid 5 1)) ].

(** [follower5] after an entry (5,0) that commits up to (4,7). *)
Definition committed47 : MemController :=
  after (addEntry rawUnmarshal (addReq 5 (entry 5 0 batchA) (eid 4 7)) follower5).

(** A decoder that refuses a batch starting with the byte 0xff. *)
Definition checkedUnmarshal (value : list byte) : result (list byte) :=
  match value with
  | xff :: _ => Err (ErrorOther "proto: cannot parse invalid wire-format data")
  | _ => Ok value
  end.

Definition batchBad : list byte := [xff].

(** The stream of [orderlySession], each response sent without error. *)
Definition orderlyStream : list (proto.AddEntryRequest * option error) :=
  [ (addReq 5 (entry 5 0 batchA) (eid 0 0), None);
    (addReq 5 (entry 5 1 batchB) (eid 5 0), None) ].

(** * The cluster client of the operator (package cluster) *)

Module cluster.

Local Open Scope string_scope.

(** ** What the package imports *)

(** A Go call that returns or panics. *)
Inductive outcome (A : Type) : Type :=
| Returns (a : A)
| Panics.
Arguments Returns {A} a.
Arguments Panics {A}.

(** [err.Error()]: the text of an error.  The call panics on a nil
    error, an interface value without a method table. *)
Definition errorText (e : error) : string :=
  match e with
  | ErrorInvalidEpoch => "oxia: invalid epoch"
  | ErrorInvalidStatus => "oxia: invalid status"
  | ErrorOther msg => msg
  end.

Definition Error (err : option error) : outcome string :=
  match err with
  | Some e => Returns (errorText e)
  | None => Panics
  end.

(** [multierr.Append]: an error is the list of the errors it combines,
    nil the empty list. *)
Definition multierr_Append (left right : list error) : list error :=
  (left ++ right)%list.

(** [errors.New(text)] and [fmt.Errorf(label + ": %s", text)]. *)
Definition errors_New (text : string) : list error := [ErrorOther text].

Definition fmt_Errorf (label text : string) : list error :=
  [ErrorOther (label ++ ": " ++ text)].

(** The values of packages [resource], [crd] and [k8sResource] the client
    uses and the sources at hand do not declare. *)
Class Imports : Type :=
  { NamedPort : Type;
    MetricsPort : NamedPort;
    AllPorts : list NamedPort;
    crd_Group : string;
    crd_Resource : string;
    (** [k8sResource.ParseQuantity], reduced to its error *)
    ParseQuantity : string -> option error }.

(** The configurations of package [resource], with the fields the client
    sets. *)
Record Resources : Type := { Cpu : string; Memory : string }.

Record VolumeConfig : Type :=
  { VolumeConfig_Name : string;
    VolumeConfig_Path : string;
    VolumeConfig_Volume : string }.

Record PodConfig `{Imports} : Type :=
  { PodConfig_Name : string;
    PodConfig_Image : string;
    PodConfig_Command : string;
    PodConfig_Args : list string;
    PodConfig_Ports : list NamedPort;
    PodConfig_Resources : Resources;
    PodConfig_VolumeConfig : option VolumeConfig }.

Record DeploymentConfig `{Imports} : Type :=
  { DeploymentConfig_PodConfig : PodConfig;
    DeploymentConfig_Replicas : uint32 }.

Record StatefulSetConfig `{Imports} : Type :=
  { StatefulSetConfig_PodConfig : PodConfig;
    StatefulSetConfig_Replicas : uint32;
    StatefulSetConfig_Volume : string }.

Record ServiceConfig `{Imports} : Type :=
  { ServiceConfig_Name : string;
    ServiceConfig_Headless : bool;
    ServiceConfig_Ports : list NamedPort }.

(** [resource.Meta(name)] and [resource.PolicyRule(group, resources,
    verbs)] stand for what they are called with. *)
Inductive ObjectMeta : Type := Meta (name : string).

Record PolicyRule : Type :=
  { PolicyRule_Group : string;
    PolicyRule_Resources : list string;
    PolicyRule_Verbs : list string }.

(** The three types of [rbacV1] the client builds. *)
Record Role : Type :=
  { Role_ObjectMeta : ObjectMeta; Role_Rules : list PolicyRule }.

Record Subject : Type :=
  { Subject_APIGroup : string;
    Subject_Kind : string;
    Subject_Name : string;
    Subject_Namespace : string }.

Record RoleRef : Type :=
  { RoleRef_APIGroup : string; RoleRef_Kind : string; RoleRef_Name : string }.

Record RoleBinding : Type :=
  { RoleBinding_ObjectMeta : ObjectMeta;
    RoleBinding_Subjects : list Subject;
    RoleBinding_RoleRef : RoleRef }.

(** An object handed to an [Upsert].  [resource.ServiceAccount(name)],
    [resource.Deployment(config)] and the like stand for what they are
    called with. *)
Inductive Object `{Imports} : Type :=
| ServiceAccount (name : string)
| RoleObject (r : Role)
| RoleBindingObject (rb : RoleBinding)
| Deployment (config : DeploymentConfig)
| Service (config : ServiceConfig)
| ServiceMonitor (name : string)
| StatefulSet (config : StatefulSetConfig).

(** The typed clients of package [client]; [ServiceMonitors] is the one
    over [c.monitoring], the others are over [c.kubernetes]. *)
Inductive Client : Type :=
| ServiceAccounts | Roles | RoleBindings | Deployments | Services
| ServiceMonitors | StatefulSets.

(** A call on a client. *)
Inductive Request `{Imports} : Type :=
| CallUpsert (c : Client) (namespace : string) (o : Object)
| CallDelete (c : Client) (namespace name : string).

(** What lies outside the process: the cluster behind the two clientsets
    and the writer [out].  [resource.PrintAndAppend(out, errs, err, verb,
    what)] is not in the sources at hand; it returns an error and may
    write to [out]. *)
Class Outside `{Imports} (S : Type) : Type :=
  { perform : S -> Request -> option error * S;
    PrintAndAppend : S -> list error -> option error -> string -> string ->
                     list error * S }.

(** ** Config *)

Record Config : Type :=
  { Name : string;
    Namespace : string;
    ShardCount : uint32;
    ReplicationFactor : uint32;
    ServerReplicas : uint32;
    ServerResources : Resources;
    ServerVolume : string;
    CoordinatorResources : Resources;
    Image : string;
    MonitoringEnabled : bool }.

Definition NewConfig : Config :=
  {| Name := EmptyString;
     Namespace := EmptyString;
     ShardCount := 3;
     ReplicationFactor := 3;
     ServerReplicas := 3;
     ServerResources := {| Cpu := "100m"; Memory := "128Mi" |};
     ServerVolume := "1Gi";
     CoordinatorResources := {| Cpu := "100m"; Memory := "128Mi" |};
     Image := "oxia:latest";
     MonitoringEnabled := true |}.

Section Client.

Context {imports : Imports}.

(** [errs = multierr.Append(errs, fmt.Errorf(label + ": %s", err.Error()))]
    and what follows it. *)
Definition appendQuantityError (errs : list error) (label : string)
    (err : option error) (k : list error -> outcome (list error))
    : outcome (list error) :=
  match Error err with
  | Panics => Panics
  | Returns text => k (multierr_Append errs (fmt_Errorf label text))
  end.

Definition Validate (c : Config) : outcome (list error) :=
  let errs := [] in
  let errs :=
    if String.eqb (Name c) EmptyString
    then multierr_Append errs (errors_New "name must be set")
    else errs in
  let errs :=
    if String.eqb (Namespace c) EmptyString
    then multierr_Append errs (errors_New "namespace must be set")
    else errs in
  let err := ParseQuantity (Cpu (ServerResources c)) in
  appendQuantityError errs "ServerResources.Cpu" err (fun errs =>
  let err := ParseQuantity (Memory (ServerResources c)) in
  appendQuantityError errs "ServerResources.Memory" err (fun errs =>
  let err := ParseQuantity (ServerVolume c) in
  appendQuantityError errs "ServerVolume" err (fun errs =>
  let err := ParseQuantity (Cpu (CoordinatorResources c)) in
  appendQuantityError errs "ServerResources.Cpu" err (fun errs =>
  let err := ParseQuantity (Memory (CoordinatorResources c)) in
  appendQuantityError errs "ServerResources.Memory" err (fun errs =>
  Returns errs))))).

(** ** The RBAC objects *)

Definition policyRules : list PolicyRule :=
  [ {| PolicyRule_Group := crd_Group;
       PolicyRule_Resources := [crd_Resource];
       PolicyRule_Verbs := ["get"; "update"] |};
    {| PolicyRule_Group := EmptyString;
       PolicyRule_Resources := ["configmaps"];
       PolicyRule_Verbs := ["*"] |} ].

Definition role (name : string) : Role :=
  {| Role_ObjectMeta := Meta name; Role_Rules := policyRules |}.

Definition roleBinding (name namespace : string) : RoleBinding :=
  {| RoleBinding_ObjectMeta := Meta name;
     RoleBinding_Subjects :=
       [ {| Subject_APIGroup := "rbac.authorization.k8s.io";
            Subject_Kind := "ServiceAccount";
            Subject_Name := name;
            Subject_Namespace := namespace |} ];
     RoleBinding_RoleRef :=
       {| RoleRef_APIGroup := "rbac.authorization.k8s.io";
          RoleRef_Kind := "Role";
          RoleRef_Name := name |} |}.

(** ** Apply and Delete *)

Context {S : Type} {outside : Outside S}.

(** A method of the client: its result, the outside afterwards, and the
    calls it made on the clients, oldest first.  No method returns
    early. *)
Definition K (A : Type) : Type := S -> A * S * list Request.

Definition pure {A} (a : A) : K A := fun s => (a, s, []).

Definition then_ {A B} (m : K A) (k : A -> K B) : K B :=
  fun s =>
    match m s with
    | (a, s1, r1) =>
        match k a s1 with
        | (b, s2, r2) => (b, s2, (r1 ++ r2)%list)
        end
    end.

Definition call (r : Request) : K (option error) :=
  fun s => match perform s r with (err, s1) => (err, s1, [r]) end.

Definition printAndAppend (errs : list error) (err : option error)
    (verb what : string) : K (list error) :=
  fun s =>
    match PrintAndAppend s errs err verb what with
    | (errs1, s1) => (errs1, s1, [])
    end.

Notation "x <- m ;; k" := (then_ m (fun x => k))
  (at level 61, m at next level, right associativity).

Definition applyCoordinator (config : Config) : K (list error) :=
  let errs := [] in
  let name := Name config ++ "-coordinator" in
  let ports := [MetricsPort] in
  err <- call (CallUpsert ServiceAccounts (Namespace config)
                 (ServiceAccount name)) ;;
  errs <- printAndAppend errs err "apply" "coordinator ServiceAccount" ;;
  err <- call (CallUpsert Roles (Namespace config) (RoleObject (role name))) ;;
  errs <- printAndAppend errs err "apply" "coordinator Role" ;;
  err <- call (CallUpsert RoleBindings (Namespace config)
                 (RoleBindingObject (roleBinding name (Namespace config)))) ;;
  errs <- printAndAppend errs err "apply" "coordinator RoleBinding" ;;
  let deploymentConfig :=
    {| DeploymentConfig_PodConfig :=
         {| PodConfig_Name := name;
            PodConfig_Image := Image config;
            PodConfig_Command := "coordinator";
            PodConfig_Args := [];
            PodConfig_Ports := ports;
            PodConfig_Resources := CoordinatorResources config;
            PodConfig_VolumeConfig := None |};
       DeploymentConfig_Replicas := 1 |} in
  err <- call (CallUpsert Deployments (Namespace config)
                 (Deployment deploymentConfig)) ;;
  errs <- printAndAppend errs err "apply" "coordinator Deployment" ;;
  let serviceConfig :=
    {| ServiceConfig_Name := name;
       ServiceConfig_Headless := false;
       ServiceConfig_Ports := ports |} in
  err <- call (CallUpsert Services (Namespace config) (Service serviceConfig)) ;;
  errs <- printAndAppend errs err "apply" "coordinator Service" ;;
  if MonitoringEnabled config
  then
    err <- call (CallUpsert ServiceMonitors (Namespace config)
                   (ServiceMonitor name)) ;;
    errs <- printAndAppend errs err "apply" "coordinator ServiceMonitor" ;;
    pure errs
  else pure errs.

Definition applyServers (config : Config) : K (list error) :=
  let errs := [] in
  let ports := AllPorts in
  err <- call (CallUpsert ServiceAccounts (Namespace config)
                 (ServiceAccount (Name config))) ;;
  errs <- printAndAppend errs err "apply" "server ServiceAccount" ;;
  let statefulSetConfig :=
    {| StatefulSetConfig_PodConfig :=
         {| PodConfig_Name := Name config;
            PodConfig_Image := Image config;
            PodConfig_Command := "server";
            PodConfig_Args := [];
            PodConfig_Ports := ports;
            PodConfig_Resources := ServerResources config;
            PodConfig_VolumeConfig :=
              Some {| VolumeConfig_Name := "data";
                      VolumeConfig_Path := "/data";
                      VolumeConfig_Volume := ServerVolume config |} |};
       StatefulSetConfig_Replicas := ServerReplicas config;
       StatefulSetConfig_Volume := ServerVolume config |} in
  err <- call (CallUpsert StatefulSets (Namespace config)
                 (StatefulSet statefulSetConfig)) ;;
  errs <- printAndAppend errs err "apply" "server StatefulSet" ;;
  let serviceConfig :=
    {| ServiceConfig_Name := Name config;
       ServiceConfig_Headless := true;
       ServiceConfig_Ports := ports |} in
  err <- call (CallUpsert Services (Namespace config) (Service serviceConfig)) ;;
  errs <- printAndAppend errs err "apply" "server Service" ;;
  if MonitoringEnabled config
  then
    err <- call (CallUpsert ServiceMonitors (Namespace config)
                   (ServiceMonitor (Name config))) ;;
    errs <- printAndAppend errs err "apply" "server ServiceMonitor" ;;
    pure errs
  else pure errs.

Definition Apply (config : Config) : K (list error) :=
  let errs := [] in
  err <- applyCoordinator config ;;
  let errs := multierr_Append errs err in
  err <- applyServers config ;;
  let errs := multierr_Append errs err in
  pure errs.

Definition deleteCoordinator (config : Config) : K (list error) :=
  let errs := [] in
  let name := Name config ++ "-coordinator" in
  errs <-
    (if MonitoringEnabled config
     then
       err <- call (CallDelete ServiceMonitors (Namespace config) name) ;;
       printAndAppend errs err "delete" "coordinator ServiceMonitor"
     else pure errs) ;;
  err <- call (CallDelete Services (Namespace config) name) ;;
  errs <- printAndAppend errs err "delete" "coordinator Service" ;;
  err <- call (CallDelete Deployments (Namespace config) name) ;;
  errs <- printAndAppend errs err "delete" "coordinator Deployment" ;;
  err <- call (CallDelete RoleBindings (Namespace config) name) ;;
  errs <- printAndAppend errs err "delete" "coordinator RoleBinding" ;;
  err <- call (CallDelete Roles (Namespace config) name) ;;
  errs <- printAndAppend errs err "delete" "coordinator Role" ;;
  err <- call (CallDelete ServiceAccounts (Namespace config) name) ;;
  errs <- printAndAppend errs err "delete" "coordinator ServiceAccount" ;;
  pure errs.

Definition deleteServers (config : Config) : K (list error) :=
  let errs := [] in
  errs <-
    (if MonitoringEnabled config
     then
       err <- call (CallDelete ServiceMonitors (Namespace config)
                      (Name config)) ;;
       printAndAppend errs err "delete" "server ServiceMonitor"
     else pure errs) ;;
  err <- call (CallDelete Services (Namespace config) (Name config)) ;;
  errs <- printAndAppend errs err "delete" "server Service" ;;
  err <- call (CallDelete StatefulSets (Namespace config) (Name config)) ;;
  errs <- printAndAppend errs err "delete" "server StatefulSet" ;;
  err <- call (CallDelete ServiceAccounts (Namespace config) (Name config)) ;;
  errs <- printAndAppend errs err "delete" "server ServiceAccount" ;;
  pure errs.

Definition Delete (config : Config) : K (list error) :=
  let errs := [] in
  err <- deleteServers config ;;
  let errs := multierr_Append errs err in
  err <- deleteCoordinator config ;;
  let errs := multierr_Append errs err in
  pure errs.

(** The calls a method made. *)
Definition requests {A} (r : A * S * list Request) : list Request := snd r.

End Client.

(** ** Reading a request *)

(** The name an object is built from. *)
Definition objectName `{Imports} (o : Object) : string :=
  match o with
  | ServiceAccount name => name
  | RoleObject r => match Role_ObjectMeta r with Meta name => name end
  | RoleBindingObject rb =>
      match RoleBinding_ObjectMeta rb with Meta name => name end
  | Deployment config => PodConfig_Name (DeploymentConfig_PodConfig config)
  | Service config => ServiceConfig_Name config
  | ServiceMonitor name => name
  | StatefulSet config => PodConfig_Name (StatefulSetConfig_PodConfig config)
  end.

(** The client, the namespace and the name a request is about. *)
Definition target `{Imports} (r : Request) : Client * string * string :=
  match r with
  | CallUpsert c namespace o => (c, namespace, objectName o)
  | CallDelete c namespace name => (c, namespace, name)
  end.

Definition client `{Imports} (r : Request) : Client := fst (fst (target r)).

Definition isServiceMonitors (c : Client) : bool :=
  match c with ServiceMonitors => true | _ => false end.

(** ** Imports and an outside to run the client on *)

(** Quantities are taken to be the non-empty strings; ports are numbers. *)
Definition testImports : Imports :=
  {| NamedPort := N;
     MetricsPort := 8080;
     AllPorts := [6648; 6649; 8080];
     crd_Group := "oxia.streamnative.io";
     crd_Resource := "oxiaclusters";
     ParseQuantity := fun text =>
       if String.eqb text EmptyString
       then Some (ErrorOther "quantities must match the regular expression")
       else None |}.

(** A configuration none of whose quantities is set. *)
Definition unsetConfig : Config :=
  {| Name := "oxia";
     Namespace := EmptyString;
     ShardCount := 3;
     ReplicationFactor := 3;
     ServerReplicas := 3;
     ServerResources := {| Cpu := EmptyString; Memory := EmptyString |};
     ServerVolume := EmptyString;
     CoordinatorResources := {| Cpu := EmptyString; Memory := EmptyString |};
     Image := "oxia:latest";
     MonitoringEnabled := true |}.

(** [unsetConfig] for another number of shards and replicas. *)
Definition reshardedConfig : Config :=
  {| Name := "oxia";
     Namespace := EmptyString;
     ShardCount := 12;
     ReplicationFactor := 5;
     ServerReplicas := 3;
     ServerResources := {| Cpu := EmptyString; Memory := EmptyString |};
     ServerVolume := EmptyString;
     CoordinatorResources := {| Cpu := EmptyString; Memory := EmptyString |};
     Image := "oxia:latest";
     MonitoringEnabled := true |}.

(** An outside that takes every call; it keeps what was printed. *)
Definition obliging : @Outside testImports (list string) :=
  {| perform := fun s _ => (None, s);
     PrintAndAppend := fun s errs err verb what =>
       (multierr_Append errs
          match err with Some e => [e] | None => [] end,
        (verb ++ " " ++ what) :: s) |}.

End cluster.

(** * Properties *)

(** ** The order on entry ids *)

Ltac order_bool :=
  unfold EntryId_le, EntryId_lt, EntryId_leb, EntryId_ltb in *;
  rewrite ?orb_true_iff, ?andb_true_iff, ?orb_false_iff, ?andb_false_iff,
    ?N.ltb_lt, ?N.leb_le, ?N.eqb_eq, ?N.ltb_ge, ?N.leb_gt, ?N.eqb_neq in *;
  lia.

Lemma EntryId_le_refl a : EntryId_le a a.
Proof. order_bool. Qed.

Lemma EntryId_le_trans a b c :
  EntryId_le a b -> EntryId_le b c -> EntryId_le a c.
Proof. intros. order_bool. Qed.

Lemma EntryId_le_total a b : EntryId_le a b \/ EntryId_le b a.
Proof. order_bool. Qed.

Lemma EntryId_le_antisym a b : EntryId_le a b -> EntryId_le b a -> a = b.
Proof.
  destruct a as [ea oa], b as [eb ob]; unfold EntryId_le, EntryId_leb; simpl.
  rewrite !orb_true_iff, !andb_true_iff, !N.ltb_lt, !N.leb_le, !N.eqb_eq.
  intros H1 H2.
  assert (ea = eb) by lia. assert (oa = ob) by lia. congruence.
Qed.

Lemma EntryId_ltb_leb a b : EntryId_ltb a b = negb (EntryId_leb b a).
Proof.
  destruct (EntryId_ltb a b) eqn:Hlt, (EntryId_leb b a) eqn:Hle;
    try reflexivity; exfalso; order_bool.
Qed.

Lemma EntryId_zero_le a : EntryId_le EntryId_zero a.
Proof.
  unfold EntryId_le, EntryId_leb, EntryId_zero; cbn [id_epoch id_offset].
  order_bool.
Qed.

Lemma EntryIdFromProto_toProto id : EntryIdFromProto (toProto id) = id.
Proof. destruct id; reflexivity. Qed.

Lemma Status_eqb_eq a b : Status_eqb a b = true <-> a = b.
Proof. destruct a, b; simpl; split; congruence. Qed.

(** ** Fence and Truncate *)

Section HandlerFacts.

Context {W D WR : Type} {walI : Wal W} {dbI : DB D WR}.
Variable Unmarshal : list byte -> result WR.

Abbreviation controller := (followerController W D).

(** C5.  Fence succeeds exactly when the epoch of the request is strictly
    greater than the controller's, whatever the status.  On success the
    epoch is the request's, the status is Fenced, the response carries the
    new epoch and the head index, and neither the WAL nor the KV store nor
    the head index nor the commit index is touched.  Otherwise the error is
    InvalidEpoch and the controller is as it was. *)
Theorem Fence_succeeds_iff_later_epoch (fc : controller)
    (req : proto.FenceRequest) :
  let o := Fence (WR := WR) req fc in
  (is_Err (returned o) = false <-> epoch fc < proto.FenceRequest_Epoch req)
  /\ (epoch fc < proto.FenceRequest_Epoch req ->
      returned o =
        Ok {| proto.FenceResponse_Epoch := proto.FenceRequest_Epoch req;
              proto.FenceResponse_HeadIndex := toProto (headIndex fc) |}
      /\ epoch (after o) = proto.FenceRequest_Epoch req
      /\ status (after o) = Fenced
      /\ wal (after o) = wal fc
      /\ db (after o) = db fc
      /\ headIndex (after o) = headIndex fc
      /\ commitIndex (after o) = commitIndex fc
      /\ calls o = [])
  /\ (proto.FenceRequest_Epoch req <= epoch fc ->
      returned o = Err ErrorInvalidEpoch /\ after o = fc /\ calls o = []).
Proof.
  unfold Fence, bind, get, check, checkEpochLaterIn, modify, ret, fail; simpl.
  destruct (N.leb_spec (proto.FenceRequest_Epoch req) (epoch fc)) as [Hle | Hlt];
    simpl.
  - split; [split; [discriminate | lia] |].
    split; [lia |]. intros _. destruct fc; auto.
  - split; [split; [trivial | reflexivity] |].
    split; [| lia]. intros _. repeat split.
Qed.

(** C7.  Truncate checks the status first and the epoch second: a status
    other than Fenced is InvalidStatus, a Fenced controller with another
    epoch is InvalidEpoch, and neither changes the controller.  When both
    guards pass and the WAL truncates, the status is Follower, the head
    index is the head the WAL reported, and the commit index is as
    before. *)
Theorem Truncate_guards_and_effects (fc : controller)
    (req : proto.TruncateRequest) :
  let o := Truncate (WR := WR) req fc in
  (status fc <> Fenced ->
     returned o = Err ErrorInvalidStatus /\ after o = fc /\ calls o = [])
  /\ (status fc = Fenced -> proto.TruncateRequest_Epoch req <> epoch fc ->
     returned o = Err ErrorInvalidEpoch /\ after o = fc /\ calls o = [])
  /\ (status fc = Fenced -> proto.TruncateRequest_Epoch req = epoch fc ->
      forall newHead w',
        TruncateLog (wal fc)
          (EntryIdFromProto (proto.TruncateRequest_HeadIndex req))
        = (Ok newHead, w') ->
        returned o =
          Ok {| proto.TruncateResponse_Epoch := proto.TruncateRequest_Epoch req;
                proto.TruncateResponse_HeadIndex := toProto newHead |}
        /\ status (after o) = Follower
        /\ headIndex (after o) = newHead
        /\ commitIndex (after o) = commitIndex fc
        /\ epoch (after o) = epoch fc
        /\ wal (after o) = w'
        /\ db (after o) = db fc
        /\ calls o =
             [CallWalTruncateLog
                (EntryIdFromProto (proto.TruncateRequest_HeadIndex req))]).
Proof.
  unfold Truncate, bind, get, check, checkStatus, checkEpochEqualIn, modify,
    ret, fail, walTruncateLog; simpl.
  destruct (Status_eqb (status fc) Fenced) eqn:Hst; simpl.
  - apply Status_eqb_eq in Hst.
    split; [congruence |].
    destruct (N.eqb_spec (proto.TruncateRequest_Epoch req) (epoch fc))
      as [Heq | Hne]; simpl.
    + split; [congruence |]. intros _ _ newHead w' Htr.
      rewrite Htr; simpl. repeat split; auto.
    + split; [| congruence]. intros _ _. destruct fc; auto.
  - assert (status fc <> Fenced)
      by (intro Hs; apply Status_eqb_eq in Hs; congruence).
    split; [| split; intros; congruence].
    intros _. destruct fc; auto.
Qed.

(** C10.  When both guards of Truncate pass and the WAL fails to truncate,
    the handler returns the WAL's error with the status already Follower
    and the epoch already assigned from the request; the head index and
    the commit index are as before.  The status is no longer the Fenced
    the call started from. *)
Theorem Truncate_wal_error_keeps_assignments (fc : controller)
    (req : proto.TruncateRequest) (e : error) (w' : W) :
  status fc = Fenced ->
  proto.TruncateRequest_Epoch req = epoch fc ->
  TruncateLog (wal fc) (EntryIdFromProto (proto.TruncateRequest_HeadIndex req))
    = (Err e, w') ->
  let o := Truncate (WR := WR) req fc in
  returned o = Err e
  /\ status (after o) = Follower
  /\ status (after o) <> status fc
  /\ epoch (after o) = proto.TruncateRequest_Epoch req
  /\ headIndex (after o) = headIndex fc
  /\ commitIndex (after o) = commitIndex fc.
Proof.
  intros Hst Hep Htr.
  unfold Truncate, bind, get, check, checkStatus, checkEpochEqualIn, modify,
    ret, fail, walTruncateLog; simpl.
  rewrite Hst; simpl. rewrite Hep, N.eqb_refl; simpl.
  rewrite <- Hep, Htr; simpl.
  repeat split; congruence.
Qed.

(** ** addEntry *)

(** The paths of [addEntry], one after the other. *)
Lemma addEntry_paths (fc : controller) (req : proto.AddEntryRequest) :
  addEntry Unmarshal req fc =
    if negb (Status_eqb (status fc) Follower)
       && negb (Status_eqb (status fc) Fenced)
    then {| returned := Err ErrorInvalidStatus; after := fc; calls := [] |}
    else if proto.AddEntryRequest_Epoch req <? epoch fc
    then {| returned := Ok (rejection req); after := fc; calls := [] |}
    else
      let fc1 :=
        set_epoch (proto.AddEntryRequest_Epoch req) (set_status Follower fc) in
      match Append (wal fc) (entryOf req) with
      | (Some e, w1) =>
          {| returned := Err e; after := set_wal w1 fc1;
             calls := [CallWalAppend (entryOf req)] |}
      | (None, w1) =>
          let fc2 :=
            set_commitIndex (commitOf req)
              (set_headIndex (EntryIdFromProto (entryIdOf req))
                 (set_wal w1 fc1)) in
          match ReadSync w1 (commitIndex fc) (commitOf req)
                  (applyEntry Unmarshal) (db fc, []) with
          | (err, (d, brs)) =>
              {| returned :=
                   match err with
                   | Some e => Err e
                   | None => Ok (acceptance req)
                   end;
                 after := set_db d fc2;
                 calls := CallWalAppend (entryOf req)
                          :: CallWalReadSync (commitIndex fc) (commitOf req)
                          :: map CallDBProcessWrite brs |}
          end
      end.
Proof.
  unfold addEntry, bind, get, modify, ret, fail, walAppend, walReadSync; simpl.
  destruct (negb (Status_eqb (status fc) Follower)
            && negb (Status_eqb (status fc) Fenced)); [reflexivity |].
  destruct (proto.AddEntryRequest_Epoch req <? epoch fc); [reflexivity |].
  simpl.
  destruct (Append (wal fc) (entryOf req)) as [[e |] w1]; simpl;
    [reflexivity |].
  destruct (ReadSync w1 (commitIndex fc) (commitOf req)
              (applyEntry Unmarshal) (db fc, [])) as [[e |] [d brs]];
    simpl; rewrite ?app_nil_r; reflexivity.
Qed.

Lemma status_guard_passes (fc : controller) :
  status fc = Follower \/ status fc = Fenced ->
  negb (Status_eqb (status fc) Follower)
  && negb (Status_eqb (status fc) Fenced) = false.
Proof. intros [-> | ->]; reflexivity. Qed.

Lemma filter_isWalAppend_writes (brs : list WR) :
  filter isWalAppend (map (@CallDBProcessWrite WR) brs) = [].
Proof. induction brs as [| br brs IH]; simpl; auto. Qed.

(** C3.  A request whose epoch is strictly less than the controller's,
    received while the status is Follower or Fenced, is answered with the
    request's epoch, no entry id and [invalid_epoch] set; no call reaches
    the WAL or the KV store and the controller, with its epoch, status,
    head index and commit index, is as it was.  The stream goes on: once
    the answer is sent the loop handles the rest of the stream from the
    same controller. *)
Theorem addEntry_stale_epoch_rejected (fc : controller)
    (req : proto.AddEntryRequest) :
  status fc = Follower \/ status fc = Fenced ->
  proto.AddEntryRequest_Epoch req < epoch fc ->
  addEntry Unmarshal req fc =
    {| returned :=
         Ok {| proto.AddEntryResponse_Epoch := proto.AddEntryRequest_Epoch req;
               proto.AddEntryResponse_EntryId := None;
               proto.AddEntryResponse_InvalidEpoch := true |};
       after := fc;
       calls := [] |}
  /\ forall recvErr rest,
       AddEntries Unmarshal recvErr ((req, None) :: rest) fc =
       let '(s, fc', cs) := AddEntries Unmarshal recvErr rest fc in
       ({| sent := rejection req :: sent s; ended := ended s |}, fc', cs).
Proof.
  intros Hst Hep.
  assert (Hadd : addEntry Unmarshal req fc =
                 {| returned := Ok (rejection req); after := fc; calls := [] |}).
  { rewrite addEntry_paths, (status_guard_passes fc Hst).
    apply N.ltb_lt in Hep. rewrite Hep. reflexivity. }
  split; [exact Hadd |].
  intros recvErr rest. simpl. rewrite Hadd. simpl.
  destruct (AddEntries Unmarshal recvErr rest fc) as [[s fc'] cs]. reflexivity.
Qed.

(** C4.  A request received while the status is Follower or Fenced, with
    an epoch no less than the controller's, and answered without error:
    the status is Follower, the epoch is the request's, the WAL was
    appended to exactly once, with the entry of the request, the head
    index is the id of that entry, and the response carries the
    controller's epoch, the id of the entry and [invalid_epoch] unset. *)
Theorem addEntry_accepted (fc : controller) (req : proto.AddEntryRequest)
    (resp : proto.AddEntryResponse) :
  status fc = Follower \/ status fc = Fenced ->
  epoch fc <= proto.AddEntryRequest_Epoch req ->
  returned (addEntry Unmarshal req fc) = Ok resp ->
  let o := addEntry Unmarshal req fc in
  status (after o) = Follower
  /\ epoch (after o) = proto.AddEntryRequest_Epoch req
  /\ filter isWalAppend (calls o)
     = [CallWalAppend (proto.AddEntryRequest_Entry req)]
  /\ (exists w1, Append (wal fc) (proto.AddEntryRequest_Entry req) = (None, w1)
                 /\ wal (after o) = w1)
  /\ headIndex (after o)
     = EntryIdFromProto
         (proto.LogEntry_EntryId (proto.AddEntryRequest_Entry req))
  /\ resp =
     {| proto.AddEntryResponse_Epoch := epoch (after o);
        proto.AddEntryResponse_EntryId :=
          Some (proto.LogEntry_EntryId (proto.AddEntryRequest_Entry req));
        proto.AddEntryResponse_InvalidEpoch := false |}.
Proof.
  intros Hst Hep. cbv zeta.
  rewrite addEntry_paths, (status_guard_passes fc Hst).
  apply N.ltb_ge in Hep. rewrite Hep. cbv zeta.
  destruct (Append (wal fc) (entryOf req)) as [[e |] w1]; simpl;
    [discriminate |].
  destruct (ReadSync w1 (commitIndex fc) (commitOf req)
              (applyEntry Unmarshal) (db fc, [])) as [[e |] [d brs]]; simpl;
    [discriminate |].
  intros Hresp. injection Hresp as <-.
  rewrite filter_isWalAppend_writes.
  repeat split; eauto.
Qed.

Lemma addEntry_flagMatchesId (fc : controller) (req : proto.AddEntryRequest)
    (resp : proto.AddEntryResponse) :
  returned (addEntry Unmarshal req fc) = Ok resp -> flagMatchesId resp.
Proof.
  rewrite addEntry_paths.
  destruct (negb (Status_eqb (status fc) Follower)
            && negb (Status_eqb (status fc) Fenced)); [discriminate |].
  destruct (proto.AddEntryRequest_Epoch req <? epoch fc); simpl.
  - intros H; injection H as <-. split; reflexivity.
  - destruct (Append (wal fc) (entryOf req)) as [[e |] w1]; simpl;
      [discriminate |].
    destruct (ReadSync w1 (commitIndex fc) (commitOf req)
                (applyEntry Unmarshal) (db fc, [])) as [[e |] [d brs]]; simpl;
      [discriminate |].
    intros H; injection H as <-. split; simpl; discriminate.
Qed.

(** C8.  In every response the controller produces, whether returned by
    [addEntry] or sent on the stream by [AddEntries], [invalid_epoch] is
    set exactly when the entry id is absent; a response with
    [invalid_epoch] unset carries an entry id. *)
Theorem AddEntryResponse_invalid_epoch_iff_no_entry_id :
  (forall (fc : controller) req resp,
      returned (addEntry Unmarshal req fc) = Ok resp ->
      (proto.AddEntryResponse_InvalidEpoch resp = true
       <-> proto.AddEntryResponse_EntryId resp = None)
      /\ (proto.AddEntryResponse_InvalidEpoch resp = false ->
          exists id, proto.AddEntryResponse_EntryId resp = Some id))
  /\ (forall recvErr incoming (fc : controller),
      Forall (fun resp =>
                proto.AddEntryResponse_InvalidEpoch resp = true
                <-> proto.AddEntryResponse_EntryId resp = None)
        (sent (fst (fst (AddEntries Unmarshal recvErr incoming fc))))).
Proof.
  split.
  - intros fc req resp H. pose proof (addEntry_flagMatchesId fc req resp H) as F.
    split; [exact F |].
    unfold flagMatchesId in F.
    destruct (proto.AddEntryResponse_EntryId resp) as [id |]; eauto.
    intros Hf. rewrite (proj2 F eq_refl) in Hf. discriminate.
  - intros recvErr incoming. induction incoming as [| [req sendErr] rest IH];
      intros fc; simpl; [constructor |].
    destruct (returned (addEntry Unmarshal req fc)) as [res | err] eqn:Hret;
      [| constructor].
    destruct sendErr as [err |]; [constructor |].
    specialize (IH (after (addEntry Unmarshal req fc))).
    destruct (AddEntries Unmarshal recvErr rest
                (after (addEntry Unmarshal req fc))) as [[s fc'] cs].
    simpl in *. constructor; [| exact IH].
    exact (addEntry_flagMatchesId fc req res Hret).
Qed.

(** *** The commit index and the apply range *)

Lemma filter_isDBCall_writes (brs : list WR) :
  filter isDBCall (map (@CallDBProcessWrite WR) brs)
  = map CallDBProcessWrite brs.
Proof.
  induction brs as [| br brs IH]; simpl; [reflexivity |].
  unfold isDBCall at 1; simpl. f_equal. exact IH.
Qed.

Lemma inRange_spec (from to : EntryId) (e : proto.LogEntry) :
  inRange from to e = true
  <-> EntryId_lt from (entryId e) /\ EntryId_le (entryId e) to.
Proof. unfold inRange, EntryId_lt, EntryId_le. apply andb_true_iff. Qed.

Lemma range_empty (from to : EntryId) (l : list proto.LogEntry) :
  EntryId_le to from -> filter (inRange from to) l = [].
Proof.
  intros Hle. induction l as [| e l IH]; simpl; [reflexivity |].
  destruct (inRange from to e) eqn:Hin; [| exact IH].
  apply inRange_spec in Hin as [Hlt Hle'].
  exfalso. order_bool.
Qed.

Lemma range_sorted (from to : EntryId) (l : list proto.LogEntry) :
  StronglySorted EntryId_lt (map entryId l) ->
  StronglySorted EntryId_lt (map entryId (filter (inRange from to) l)).
Proof.
  induction l as [| e l IH]; simpl; intros Hs; [constructor |].
  inversion Hs as [| x xs Hrest Hall]; subst.
  destruct (inRange from to e); simpl; [| exact (IH Hrest)].
  constructor; [exact (IH Hrest) |].
  rewrite Forall_map in *. rewrite Forall_forall in *.
  intros y Hy. apply filter_In in Hy as [Hy _]. exact (Hall y Hy).
Qed.

(** The writes a visit hands to the KV store are the decoded values of the
    entries visited, in order, up to the first failure; all of them when
    nothing fails. *)
Lemma visitAll_applyEntry_prefix (l : list proto.LogEntry) (d0 : D)
    (brs0 : list WR) :
  exists (k : nat) (brs : list WR),
    snd (snd (visitAll (applyEntry Unmarshal) l (d0, brs0))) = brs0 ++ brs
    /\ map Ok brs
       = map (fun e => Unmarshal (proto.LogEntry_Value e)) (firstn k l)
    /\ (fst (visitAll (applyEntry Unmarshal) l (d0, brs0)) = None ->
        k = length l).
Proof.
  revert d0 brs0. induction l as [| e l IH]; intros d0 brs0.
  - exists 0%nat, []. simpl. rewrite app_nil_r. auto.
  - simpl.
    destruct (applyEntry Unmarshal e (d0, brs0)) as [[err |] [d1 brs1]] eqn:Happ;
      unfold applyEntry in Happ; simpl in Happ;
      destruct (Unmarshal (proto.LogEntry_Value e)) as [br | uerr] eqn:Hu;
      try destruct (ProcessWrite d0 br) as [perr d2];
      try discriminate; injection Happ as Herr Hd Hbrs; subst; simpl.
    + exists 1%nat, [br]. simpl. rewrite Hu.
      repeat split; auto. discriminate.
    + exists 0%nat, []. simpl. rewrite app_nil_r.
      repeat split; auto. discriminate.
    + destruct (IH d1 (brs0 ++ [br])) as (k & brs & Hsnd & Hmap & Hall).
      exists (S k), (br :: brs). simpl. rewrite Hu, Hsnd, <- app_assoc.
      repeat split; auto. rewrite Hmap. reflexivity.
Qed.

(** C2, as the code has it.  Once the guards have passed and the entry is
    appended, [addEntry] assigns the commit index of the request to the
    controller's before it reads the WAL, whatever the two compare to and
    whatever the apply then returns.  It reads the WAL from the old commit
    index to the new one: over a WAL whose read visits, in log order, the
    entries with an id strictly greater than the first bound and no
    greater than the second, the decoded values of these entries are
    handed to the KV store in that order (in id order when the log is in
    id order), all of them when the request is answered without error;
    and when the request's commit index is no greater than the old one,
    the range is empty, the KV store is not called and the request is
    accepted. *)
Theorem addEntry_commit_assigned_then_range_applied (fc : controller)
    (req : proto.AddEntryRequest) (w1 : W) (entries : list proto.LogEntry) :
  status fc = Follower \/ status fc = Fenced ->
  epoch fc <= proto.AddEntryRequest_Epoch req ->
  Append (wal fc) (proto.AddEntryRequest_Entry req) = (None, w1) ->
  (forall (A : Type) (visit : proto.LogEntry -> A -> option error * A) (a : A),
      ReadSync w1 (commitIndex fc) (commitOf req) visit a
      = visitAll visit
          (filter (inRange (commitIndex fc) (commitOf req)) entries) a) ->
  let o := addEntry Unmarshal req fc in
  let range := filter (inRange (commitIndex fc) (commitOf req)) entries in
  commitIndex (after o) = commitOf req
  /\ (forall e, In e range
                <-> In e entries
                    /\ EntryId_lt (commitIndex fc) (entryId e)
                    /\ EntryId_le (entryId e) (commitOf req))
  /\ (StronglySorted EntryId_lt (map entryId entries) ->
      StronglySorted EntryId_lt (map entryId range))
  /\ (exists (k : nat) (brs : list WR),
        filter isDBCall (calls o) = map CallDBProcessWrite brs
        /\ map Ok brs
           = map (fun e => Unmarshal (proto.LogEntry_Value e)) (firstn k range)
        /\ (forall resp, returned o = Ok resp -> k = length range))
  /\ (EntryId_le (commitOf req) (commitIndex fc) ->
      range = []
      /\ filter isDBCall (calls o) = []
      /\ db (after o) = db fc
      /\ returned o = Ok (acceptance req)).
Proof.
  intros Hst Hep Happ Hread. cbv zeta.
  rewrite addEntry_paths, (status_guard_passes fc Hst).
  apply N.ltb_ge in Hep. rewrite Hep, Happ. cbv zeta. rewrite Hread.
  set (range := filter (inRange (commitIndex fc) (commitOf req)) entries).
  split; [| split; [| split; [| split]]].
  - destruct (visitAll (applyEntry Unmarshal) range (db fc, []))
      as [err [d brs]]. reflexivity.
  - intros e. unfold range. rewrite filter_In, inRange_spec. reflexivity.
  - apply range_sorted.
  - destruct (visitAll_applyEntry_prefix range (db fc) [])
      as (k & brs & Hsnd & Hmap & Hall).
    destruct (visitAll (applyEntry Unmarshal) range (db fc, []))
      as [err [d brs']]. simpl in *. subst brs'.
    exists k, brs. cbn [calls filter isDBCall isWalCall negb].
    rewrite filter_isDBCall_writes.
    repeat split; auto.
    intros resp Hresp. apply Hall. destruct err; [discriminate | reflexivity].
  - intros Hle. unfold range. rewrite (range_empty _ _ entries Hle). simpl.
    repeat split.
Qed.

(** ** Close *)

Lemma Close_paths (fc : controller) :
  Close (WR := WR) fc =
    match WalClose (wal fc) with
    | (Some e, w) =>
        {| returned := Err e; after := set_wal w fc; calls := [CallWalClose] |}
    | (None, w) =>
        match DBClose (db fc) with
        | (err, d) =>
            {| returned := match err with Some e => Err e | None => Ok tt end;
               after := set_db d (set_wal w fc);
               calls := [CallWalClose; CallDBClose] |}
        end
    end.
Proof.
  unfold Close, bind, walClose, dbClose, ret; simpl.
  destruct (WalClose (wal fc)) as [[e |] w]; simpl; [reflexivity |].
  destruct (DBClose (db fc)) as [[e |] d]; reflexivity.
Qed.

Lemma Fence_returned_by_epoch (fc fc' : controller) (req : proto.FenceRequest) :
  epoch fc' = epoch fc -> headIndex fc' = headIndex fc ->
  returned (Fence (WR := WR) req fc') = returned (Fence (WR := WR) req fc).
Proof.
  intros He Hh.
  unfold Fence, bind, get, check, checkEpochLaterIn, modify, ret, fail; simpl.
  rewrite He.
  destruct (proto.FenceRequest_Epoch req <=? epoch fc); simpl;
    [reflexivity | rewrite Hh; reflexivity].
Qed.

(** C9, as the code has it.  Close closes the WAL first.  If that fails,
    Close returns the WAL's error and the KV store is not closed;
    otherwise it closes the KV store and returns the outcome of that.
    Close assigns none of epoch, status, head index and commit index, and
    no handler asks whether Close was called: a Fence after Close is
    decided by its epoch guard and answers what it would have answered
    before. *)
Theorem Close_wal_then_db (fc : controller) :
  let o := Close (WR := WR) fc in
  match WalClose (wal fc) with
  | (Some e, w) =>
      returned o = Err e /\ calls o = [CallWalClose]
      /\ wal (after o) = w /\ db (after o) = db fc
  | (None, w) =>
      match DBClose (db fc) with
      | (err, d) =>
          returned o = match err with Some e => Err e | None => Ok tt end
          /\ calls o = [CallWalClose; CallDBClose]
          /\ wal (after o) = w /\ db (after o) = d
      end
  end
  /\ epoch (after o) = epoch fc
  /\ status (after o) = status fc
  /\ headIndex (after o) = headIndex fc
  /\ commitIndex (after o) = commitIndex fc
  /\ forall req,
       returned (Fence (WR := WR) req (after o))
       = returned (Fence (WR := WR) req fc).
Proof.
  cbv zeta. rewrite Close_paths.
  destruct (WalClose (wal fc)) as [[e |] w].
  - simpl. repeat split. intros req. apply Fence_returned_by_epoch; reflexivity.
  - destruct (DBClose (db fc)) as [err d]. simpl. repeat split.
    intros req. apply Fence_returned_by_epoch; reflexivity.
Qed.

(** ** Sequences of calls *)

Lemma step_epoch_mono (op : Op) (fc : controller) :
  epoch fc <= epoch (step Unmarshal op fc).
Proof.
  destruct op as [req | req | req |]; unfold step.
  - unfold Fence, bind, get, check, checkEpochLaterIn, modify, ret, fail; simpl.
    destruct (N.leb_spec (proto.FenceRequest_Epoch req) (epoch fc)); simpl; lia.
  - unfold Truncate, bind, get, check, checkStatus, checkEpochEqualIn, modify,
      ret, fail, walTruncateLog; simpl.
    destruct (Status_eqb (status fc) Fenced); simpl; [| lia].
    destruct (N.eqb_spec (proto.TruncateRequest_Epoch req) (epoch fc)); simpl;
      [| lia].
    destruct (TruncateLog (wal fc)
                (EntryIdFromProto (proto.TruncateRequest_HeadIndex req)))
      as [[h | e'] w]; simpl; lia.
  - rewrite addEntry_paths.
    destruct (negb (Status_eqb (status fc) Follower)
              && negb (Status_eqb (status fc) Fenced)); simpl; [lia |].
    destruct (N.ltb_spec (proto.AddEntryRequest_Epoch req) (epoch fc)); simpl;
      [lia |].
    destruct (Append (wal fc) (entryOf req)) as [[e |] w1]; simpl; [lia |].
    destruct (ReadSync w1 (commitIndex fc) (commitOf req)
                (applyEntry Unmarshal) (db fc, [])) as [err [d brs]]; simpl.
    lia.
  - rewrite Close_paths.
    destruct (WalClose (wal fc)) as [[e |] w]; simpl; [lia |].
    destruct (DBClose (db fc)) as [err d]; simpl. lia.
Qed.

Lemma run_cons (op : Op) (ops : list Op) (fc : controller) :
  run Unmarshal (op :: ops) fc = run Unmarshal ops (step Unmarshal op fc).
Proof. reflexivity. Qed.

Lemma run_epoch_mono (ops : list Op) (fc : controller) :
  epoch fc <= epoch (run Unmarshal ops fc).
Proof.
  revert fc. induction ops as [| op ops IH]; intros fc.
  - simpl. lia.
  - rewrite run_cons. pose proof (step_epoch_mono op fc).
    specialize (IH (step Unmarshal op fc)). lia.
Qed.

Lemma observed_epoch_bound (ops : list Op) (fc : controller) :
  Forall (fun s => epoch fc <= epoch s) (observed Unmarshal ops fc).
Proof.
  revert fc. induction ops as [| op ops IH]; intros fc; simpl;
    constructor.
  - apply step_epoch_mono.
  - pose proof (step_epoch_mono op fc) as Hs.
    eapply Forall_impl; [| apply IH]. simpl. intros s Hle. lia.
Qed.

(** C6.  The epoch never decreases.  Every call (a Fence, a Truncate, one
    request of an AddEntries stream, a Close) leaves the epoch as it was
    or raises it; so over any sequence of calls the epochs observed after
    each call form a non-decreasing sequence starting from the initial
    epoch, and an AddEntries loop ends with an epoch no less than the one
    it started from. *)
Theorem epoch_never_decreases :
  (forall (op : Op) (fc : controller),
      epoch fc <= epoch (step Unmarshal op fc))
  /\ (forall (ops : list Op) (fc : controller),
      StronglySorted N.le
        (map epoch (fc :: observed Unmarshal ops fc)))
  /\ (forall (ops : list Op) (fc : controller),
      epoch fc <= epoch (run Unmarshal ops fc))
  /\ (forall recvErr incoming (fc : controller),
      epoch fc
      <= epoch (snd (fst (AddEntries Unmarshal recvErr incoming fc)))).
Proof.
  split; [exact step_epoch_mono |].
  split; [| split; [exact run_epoch_mono |]].
  - intros ops. induction ops as [| op ops IH]; intros fc.
    + simpl. constructor; constructor.
    + specialize (IH (step Unmarshal op fc)).
      change (StronglySorted N.le
                (epoch fc
                 :: map epoch (step Unmarshal op fc
                               :: observed Unmarshal ops (step Unmarshal op fc)))).
      constructor; [exact IH |].
      apply Forall_map.
      constructor; [apply step_epoch_mono |].
      pose proof (step_epoch_mono op fc) as Hs.
      eapply Forall_impl; [| apply observed_epoch_bound].
      simpl. intros s Hle. lia.
  - intros recvErr incoming.
    induction incoming as [| [req sendErr] rest IH]; intros fc; simpl.
    + lia.
    + pose proof (step_epoch_mono (OpAddEntry req) fc) as Hs. simpl in Hs.
      destruct (returned (addEntry Unmarshal req fc)); simpl; [| exact Hs].
      destruct sendErr; simpl; [exact Hs |].
      specialize (IH (after (addEntry Unmarshal req fc))).
      destruct (AddEntries Unmarshal recvErr rest
                  (after (addEntry Unmarshal req fc))) as [[s fc'] cs].
      simpl in *. lia.
Qed.

(** The loop of [AddEntries] is a run of [addEntry] calls over the first
    requests of the stream. *)
Lemma AddEntries_runs_prefix recvErr
    (incoming : list (proto.AddEntryRequest * option error)) (fc : controller) :
  exists k : nat,
    snd (fst (AddEntries Unmarshal recvErr incoming fc))
    = run Unmarshal (map OpAddEntry (firstn k (map fst incoming))) fc.
Proof.
  revert fc. induction incoming as [| [req sendErr] rest IH]; intros fc.
  - exists 0%nat. reflexivity.
  - simpl.
    destruct (returned (addEntry Unmarshal req fc)) as [res | err];
      [| exists 1%nat; reflexivity].
    destruct sendErr as [err |]; [exists 1%nat; reflexivity |].
    destruct (IH (after (addEntry Unmarshal req fc))) as [k Hk].
    exists (S k).
    destruct (AddEntries Unmarshal recvErr rest
                (after (addEntry Unmarshal req fc))) as [[s fc'] cs].
    simpl in *. exact Hk.
Qed.

Lemma step_commit_le_head (op : Op) (fc : controller) :
  EntryId_le (commitIndex fc) (headIndex fc) ->
  keepsCommit op fc = true ->
  EntryId_le (commitIndex (step Unmarshal op fc))
             (headIndex (step Unmarshal op fc)).
Proof.
  intros Hinv Hk. destruct op as [req | req | req |]; unfold step.
  - unfold Fence, bind, get, check, checkEpochLaterIn, modify, ret, fail; simpl.
    destruct (proto.FenceRequest_Epoch req <=? epoch fc); simpl; exact Hinv.
  - unfold Truncate, bind, get, check, checkStatus, checkEpochEqualIn, modify,
      ret, fail, walTruncateLog; simpl.
    destruct (Status_eqb (status fc) Fenced); simpl; [| exact Hinv].
    destruct (proto.TruncateRequest_Epoch req =? epoch fc); simpl;
      [| exact Hinv].
    simpl in Hk.
    destruct (TruncateLog (wal fc)
                (EntryIdFromProto (proto.TruncateRequest_HeadIndex req)))
      as [[h | e'] w]; simpl in *; [exact Hk | exact Hinv].
  - rewrite addEntry_paths.
    destruct (negb (Status_eqb (status fc) Follower)
              && negb (Status_eqb (status fc) Fenced)); simpl; [exact Hinv |].
    destruct (proto.AddEntryRequest_Epoch req <? epoch fc); simpl;
      [exact Hinv |].
    destruct (Append (wal fc) (entryOf req)) as [[e |] w1]; simpl;
      [exact Hinv |].
    destruct (ReadSync w1 (commitIndex fc) (commitOf req)
                (applyEntry Unmarshal) (db fc, [])) as [err [d brs]]; simpl.
    exact Hk.
  - rewrite Close_paths.
    destruct (WalClose (wal fc)) as [[e |] w]; simpl; [exact Hinv |].
    destruct (DBClose (db fc)) as [err d]; simpl. exact Hinv.
Qed.

Lemma NewFollowerController_commit_le_head shard (w : W) (newDB : result D)
    (fc : controller) :
  NewFollowerController shard w newDB = Ok fc ->
  EntryId_le (commitIndex fc) (headIndex fc)
  /\ epoch fc = 0 /\ status fc = NotMember.
Proof.
  unfold NewFollowerController.
  destruct newDB as [d | e]; [| discriminate].
  destruct (GetHighestEntryOfEpoch w MaxEpoch) as [h | e]; [| discriminate].
  intros H; injection H as <-. simpl.
  split; [apply EntryId_zero_le | auto].
Qed.

(** C1, as the code has it.  The handlers never compare the commit index
    with the head index: an accepted AddEntry request assigns both from
    the request, and Truncate assigns the head the WAL reports.  From a
    controller whose commit index is no greater than its head index (a
    new controller is one), and over a sequence of calls in which every
    AddEntry request carries a commit index no greater than the id of its
    entry and every Truncate is reported a head no smaller than the
    commit index, the commit index is no greater than the head index
    after every call. *)
Theorem commit_le_head_when_requests_keep_it (ops : list Op) (fc : controller) :
  EntryId_le (commitIndex fc) (headIndex fc) ->
  allKeepCommit Unmarshal ops fc = true ->
  Forall (fun s => EntryId_le (commitIndex s) (headIndex s))
    (observed Unmarshal ops fc).
Proof.
  revert fc. induction ops as [| op ops IH]; intros fc Hinv Hall; simpl.
  - constructor.
  - simpl in Hall. apply andb_true_iff in Hall as [Hk Hrest].
    pose proof (step_commit_le_head op fc Hinv Hk) as Hs.
    constructor; [exact Hs | exact (IH _ Hs Hrest)].
Qed.

End HandlerFacts.

(** ** The handlers at work on the in-memory collaborators *)

(** The controllers the handlers are run on below are what a new
    controller becomes under calls of the handlers. *)
Example fresh_is_new :
  NewFollowerController 0 emptyWal (Ok ([] : MemDB)) = Ok fresh.
Proof. reflexivity. Qed.

Example fenced5_reached :
  exists fc0,
    NewFollowerController 0
      {| log := [entry 4 6 batchA; entry 4 7 batchB; entry 4 10 batchA];
         closed := false |} (Ok ([] : MemDB)) = Ok fc0
    /\ run rawUnmarshal [OpFence (fenceReq 5)] fc0 = fenced5.
Proof. eexists. split; reflexivity. Qed.

Example follower5_reached :
  exists fc0,
    NewFollowerController 0
      {| log := [entry 4 6 batchA; entry 4 7 batchB]; closed := false |}
      (Ok ([] : MemDB)) = Ok fc0
    /\ run rawUnmarshal
         [OpFence (fenceReq 5); OpTruncate (truncateReq 5 (eid 4 7))] fc0
       = follower5.
Proof. eexists. split; reflexivity. Qed.

Lemma Fence_succeeds_iff_later_epoch_witness :
  (epoch fresh < proto.FenceRequest_Epoch (fenceReq 5)
   /\ returned (Fence (WR := list byte) (fenceReq 5) fresh)
      = Ok {| proto.FenceResponse_Epoch := 5;
              proto.FenceResponse_HeadIndex := eid 0 0 |}
   /\ status (after (Fence (WR := list byte) (fenceReq 5) fresh)) = Fenced)
  /\ (proto.FenceRequest_Epoch (fenceReq 5) <= epoch fenced5
      /\ returned (Fence (WR := list byte) (fenceReq 5) fenced5)
         = Err ErrorInvalidEpoch
      /\ after (Fence (WR := list byte) (fenceReq 5) fenced5) = fenced5).
Proof.
  destruct (Fence_succeeds_iff_later_epoch (WR := list byte) fresh (fenceReq 5))
    as (_ & Hok & _).
  destruct (Fence_succeeds_iff_later_epoch (WR := list byte) fenced5 (fenceReq 5))
    as (_ & _ & Hbad).
  assert (Hlt : epoch fresh < proto.FenceRequest_Epoch (fenceReq 5))
    by reflexivity.
  assert (Hle : proto.FenceRequest_Epoch (fenceReq 5) <= epoch fenced5)
    by (simpl; lia).
  destruct (Hok Hlt) as (Hret & _ & Hst & _).
  destruct (Hbad Hle) as (Hret' & Hafter & _).
  repeat split; assumption.
Defined.

Lemma Truncate_guards_and_effects_witness :
  (status fresh <> Fenced
   /\ returned (Truncate (WR := list byte) (truncateReq 1 (eid 0 0)) fresh)
      = Err ErrorInvalidStatus)
  /\ (status fenced5 = Fenced
      /\ proto.TruncateRequest_Epoch (truncateReq 4 (eid 4 7)) <> epoch fenced5
      /\ returned (Truncate (WR := list byte) (truncateReq 4 (eid 4 7)) fenced5)
         = Err ErrorInvalidEpoch)
  /\ (proto.TruncateRequest_Epoch (truncateReq 5 (eid 4 7)) = epoch fenced5
      /\ returned (Truncate (WR := list byte) (truncateReq 5 (eid 4 7)) fenced5)
         = Ok {| proto.TruncateResponse_Epoch := 5;
                 proto.TruncateResponse_HeadIndex := eid 4 7 |}
      /\ status (after (Truncate (WR := list byte)
                          (truncateReq 5 (eid 4 7)) fenced5)) = Follower
      /\ headIndex (after (Truncate (WR := list byte)
                             (truncateReq 5 (eid 4 7)) fenced5))
         = mkEntryId 4 7).
Proof.
  destruct (Truncate_guards_and_effects (WR := list byte) fresh
              (truncateReq 1 (eid 0 0))) as (H1 & _ & _).
  destruct (Truncate_guards_and_effects (WR := list byte) fenced5
              (truncateReq 4 (eid 4 7))) as (_ & H2 & _).
  destruct (Truncate_guards_and_effects (WR := list byte) fenced5
              (truncateReq 5 (eid 4 7))) as (_ & _ & H3).
  assert (Hs1 : status fresh <> Fenced) by discriminate.
  assert (Hs2 : status fenced5 = Fenced) by reflexivity.
  assert (He2 : proto.TruncateRequest_Epoch (truncateReq 4 (eid 4 7))
                <> epoch fenced5) by discriminate.
  assert (He3 : proto.TruncateRequest_Epoch (truncateReq 5 (eid 4 7))
                = epoch fenced5) by reflexivity.
  destruct (H1 Hs1) as (R1 & _).
  destruct (H2 Hs2 He2) as (R2 & _).
  destruct (H3 Hs2 He3 (mkEntryId 4 7)
              {| log := [entry 4 6 batchA; entry 4 7 batchB]; closed := false |}
              eq_refl) as (R3 & S3 & Hd3 & _).
  repeat split; assumption.
Defined.

Lemma Truncate_wal_error_keeps_assignments_witness :
  status fenced5closed = Fenced
  /\ proto.TruncateRequest_Epoch (truncateReq 5 (eid 4 7)) = epoch fenced5closed
  /\ returned (Truncate (WR := list byte) (truncateReq 5 (eid 4 7)) fenced5closed)
     = Err ErrWalClosed
  /\ status (after (Truncate (WR := list byte)
                      (truncateReq 5 (eid 4 7)) fenced5closed)) = Follower
  /\ headIndex (after (Truncate (WR := list byte)
                         (truncateReq 5 (eid 4 7)) fenced5closed))
     = headIndex fenced5closed.
Proof.
  assert (Hs : status fenced5closed = Fenced) by reflexivity.
  assert (He : proto.TruncateRequest_Epoch (truncateReq 5 (eid 4 7))
               = epoch fenced5closed) by reflexivity.
  assert (Ht : TruncateLog (wal fenced5closed)
                 (EntryIdFromProto
                    (proto.TruncateRequest_HeadIndex (truncateReq 5 (eid 4 7))))
               = (Err ErrWalClosed, wal fenced5closed)) by reflexivity.
  destruct (Truncate_wal_error_keeps_assignments (WR := list byte)
              fenced5closed (truncateReq 5 (eid 4 7)) ErrWalClosed
              (wal fenced5closed) Hs He Ht)
    as (R & S & _ & _ & Hd & _).
  repeat split; assumption.
Defined.

Lemma addEntry_stale_epoch_rejected_witness :
  (status follower5 = Follower \/ status follower5 = Fenced)
  /\ proto.AddEntryRequest_Epoch (addReq 4 (entry 4 8 batchA) (eid 4 7))
     < epoch follower5
  /\ addEntry rawUnmarshal (addReq 4 (entry 4 8 batchA) (eid 4 7)) follower5
     = {| returned :=
            Ok {| proto.AddEntryResponse_Epoch := 4;
                  proto.AddEntryResponse_EntryId := None;
                  proto.AddEntryResponse_InvalidEpoch := true |};
          after := follower5;
          calls := [] |}.
Proof.
  assert (Hs : status follower5 = Follower \/ status follower5 = Fenced)
    by (left; reflexivity).
  assert (He : proto.AddEntryRequest_Epoch
                 (addReq 4 (entry 4 8 batchA) (eid 4 7)) < epoch follower5)
    by reflexivity.
  destruct (addEntry_stale_epoch_rejected rawUnmarshal follower5
              (addReq 4 (entry 4 8 batchA) (eid 4 7)) Hs He) as (R & _).
  repeat split; assumption.
Defined.

Lemma addEntry_accepted_witness :
  (status follower5 = Follower \/ status follower5 = Fenced)
  /\ epoch follower5
     <= proto.AddEntryRequest_Epoch (addReq 6 (entry 6 0 batchA) (eid 4 7))
  /\ returned (addEntry rawUnmarshal
                 (addReq 6 (entry 6 0 batchA) (eid 4 7)) follower5)
     = Ok {| proto.AddEntryResponse_Epoch := 6;
             proto.AddEntryResponse_EntryId := Some (eid 6 0);
             proto.AddEntryResponse_InvalidEpoch := false |}
  /\ epoch (after (addEntry rawUnmarshal
                     (addReq 6 (entry 6 0 batchA) (eid 4 7)) follower5)) = 6
  /\ headIndex (after (addEntry rawUnmarshal
                         (addReq 6 (entry 6 0 batchA) (eid 4 7)) follower5))
     = mkEntryId 6 0.
Proof.
  assert (Hs : status follower5 = Follower \/ status follower5 = Fenced)
    by (left; reflexivity).
  assert (He : epoch follower5
               <= proto.AddEntryRequest_Epoch
                    (addReq 6 (entry 6 0 batchA) (eid 4 7)))
    by (simpl; lia).
  assert (Hr : returned (addEntry rawUnmarshal
                            (addReq 6 (entry 6 0 batchA) (eid 4 7)) follower5)
               = Ok (acceptance (addReq 6 (entry 6 0 batchA) (eid 4 7))))
    by reflexivity.
  destruct (addEntry_accepted rawUnmarshal follower5
              (addReq 6 (entry 6 0 batchA) (eid 4 7)) _ Hs He Hr)
    as (_ & E & _ & _ & Hd & _).
  repeat split; assumption.
Defined.

Lemma AddEntryResponse_invalid_epoch_iff_no_entry_id_witness :
  returned (addEntry rawUnmarshal
              (addReq 4 (entry 4 8 batchA) (eid 4 7)) follower5)
  = Ok (rejection (addReq 4 (entry 4 8 batchA) (eid 4 7)))
  /\ (proto.AddEntryResponse_InvalidEpoch
        (rejection (addReq 4 (entry 4 8 batchA) (eid 4 7))) = true
      <-> proto.AddEntryResponse_EntryId
            (rejection (addReq 4 (entry 4 8 batchA) (eid 4 7))) = None)
  /\ returned (addEntry rawUnmarshal
                 (addReq 6 (entry 6 0 batchA) (eid 4 7)) follower5)
     = Ok (acceptance (addReq 6 (entry 6 0 batchA) (eid 4 7)))
  /\ (exists id,
        proto.AddEntryResponse_EntryId
          (acceptance (addReq 6 (entry 6 0 batchA) (eid 4 7))) = Some id).
Proof.
  destruct (AddEntryResponse_invalid_epoch_iff_no_entry_id
              (W := MemWal) (D := MemDB) rawUnmarshal) as (Hone & _).
  assert (Hrej : returned (addEntry rawUnmarshal
                              (addReq 4 (entry 4 8 batchA) (eid 4 7)) follower5)
                 = Ok (rejection (addReq 4 (entry 4 8 batchA) (eid 4 7))))
    by reflexivity.
  assert (Hacc : returned (addEntry rawUnmarshal
                              (addReq 6 (entry 6 0 batchA) (eid 4 7)) follower5)
                 = Ok (acceptance (addReq 6 (entry 6 0 batchA) (eid 4 7))))
    by reflexivity.
  destruct (Hone follower5 _ _ Hrej) as (Hiff & _).
  destruct (Hone follower5 _ _ Hacc) as (_ & Hsome).
  split; [exact Hrej |]. split; [exact Hiff |].
  split; [exact Hacc |]. exact (Hsome eq_refl).
Defined.

Lemma addEntry_commit_assigned_then_range_applied_witness :
  (status follower5 = Follower \/ status follower5 = Fenced)
  /\ epoch follower5
     <= proto.AddEntryRequest_Epoch (addReq 5 (entry 5 0 batchA) (eid 4 7))
  /\ commitIndex committed47 = mkEntryId 4 7
  /\ (forall e,
        In e (filter (inRange (commitIndex follower5) (mkEntryId 4 7))
                [entry 4 6 batchA; entry 4 7 batchB; entry 5 0 batchA])
        <-> In e [entry 4 6 batchA; entry 4 7 batchB; entry 5 0 batchA]
            /\ EntryId_lt (commitIndex follower5) (entryId e)
            /\ EntryId_le (entryId e) (mkEntryId 4 7))
  /\ calls (addEntry rawUnmarshal
              (addReq 5 (entry 5 0 batchA) (eid 4 7)) follower5)
     = [CallWalAppend (entry 5 0 batchA);
        CallWalReadSync (mkEntryId 0 0) (mkEntryId 4 7);
        CallDBProcessWrite batchA; CallDBProcessWrite batchB].
Proof.
  assert (Hs : status follower5 = Follower \/ status follower5 = Fenced)
    by (left; reflexivity).
  assert (He : epoch follower5
               <= proto.AddEntryRequest_Epoch
                    (addReq 5 (entry 5 0 batchA) (eid 4 7)))
    by (simpl; lia).
  assert (Ha : Append (wal follower5)
                 (proto.AddEntryRequest_Entry
                    (addReq 5 (entry 5 0 batchA) (eid 4 7)))
               = (None,
                  {| log := [entry 4 6 batchA; entry 4 7 batchB;
                             entry 5 0 batchA];
                     closed := false |})) by reflexivity.
  destruct (addEntry_commit_assigned_then_range_applied rawUnmarshal follower5
              (addReq 5 (entry 5 0 batchA) (eid 4 7))
              {| log := [entry 4 6 batchA; entry 4 7 batchB; entry 5 0 batchA];
                 closed := false |}
              [entry 4 6 batchA; entry 4 7 batchB; entry 5 0 batchA]
              Hs He Ha (fun A visit a => eq_refl))
    as (Hc & Hin & _).
  split; [exact Hs |]. split; [exact He |]. split; [exact Hc |].
  split; [exact Hin | reflexivity].
Defined.

Lemma commit_le_head_when_requests_keep_it_witness :
  EntryId_le (commitIndex fresh) (headIndex fresh)
  /\ allKeepCommit rawUnmarshal orderlySession fresh = true
  /\ Forall (fun s => EntryId_le (commitIndex s) (headIndex s))
       (observed rawUnmarshal orderlySession fresh)
  /\ map (fun s => (commitIndex s, headIndex s))
       (observed rawUnmarshal orderlySession fresh)
     = [ (mkEntryId 0 0, mkEntryId 0 0); (mkEntryId 0 0, mkEntryId 0 0);
         (mkEntryId 0 0, mkEntryId 5 0); (mkEntryId 5 0, mkEntryId 5 1) ].
Proof.
  assert (Hi : EntryId_le (commitIndex fresh) (headIndex fresh))
    by reflexivity.
  assert (Hk : allKeepCommit rawUnmarshal orderlySession fresh = true)
    by reflexivity.
  split; [exact Hi |]. split; [exact Hk |].
  split; [| reflexivity].
  exact (commit_le_head_when_requests_keep_it rawUnmarshal orderlySession fresh
           Hi Hk).
Defined.

(** C1 fails as stated.  A new controller is fenced at epoch 5; the leader
    streams the entry (5,0) with the commit index (5,1).  The request is
    accepted, and the controller is left with the commit index (5,1) above
    the head index (5,0). *)
Lemma commit_index_can_pass_head_index :
  EntryId_le (commitIndex fresh) (headIndex fresh)
  /\ returned (addEntry rawUnmarshal
                 (addReq 5 (entry 5 0 batchA) (eid 5 1))
                 (after (Fence (WR := list byte) (fenceReq 5) fresh)))
     = Ok (acceptance (addReq 5 (entry 5 0 batchA) (eid 5 1)))
  /\ commitIndex (run rawUnmarshal hastySession fresh) = mkEntryId 5 1
  /\ headIndex (run rawUnmarshal hastySession fresh) = mkEntryId 5 0
  /\ ~ EntryId_le (commitIndex (run rawUnmarshal hastySession fresh))
                  (headIndex (run rawUnmarshal hastySession fresh)).
Proof.
  repeat split; try reflexivity. discriminate.
Qed.

(** C2 fails as stated.  [committed47] has the commit index (4,7).  A
    request with the commit index (4,6), no greater than (4,7), is
    accepted and leaves the controller with the commit index (4,6): the
    commit index went back. *)
Lemma commit_index_can_go_back :
  commitIndex committed47 = mkEntryId 4 7
  /\ EntryId_le (commitOf (addReq 5 (entry 5 1 batchB) (eid 4 6)))
                (commitIndex committed47)
  /\ returned (addEntry rawUnmarshal
                 (addReq 5 (entry 5 1 batchB) (eid 4 6)) committed47)
     = Ok (acceptance (addReq 5 (entry 5 1 batchB) (eid 4 6)))
  /\ commitIndex (after (addEntry rawUnmarshal
                           (addReq 5 (entry 5 1 batchB) (eid 4 6)) committed47))
     = mkEntryId 4 6
  /\ commitIndex (after (addEntry rawUnmarshal
                           (addReq 5 (entry 5 1 batchB) (eid 4 6)) committed47))
     <> commitIndex committed47.
Proof.
  repeat split; try reflexivity. discriminate.
Qed.

(** C9 fails as stated.  After a Close that succeeded, a Fence with a later
    epoch is answered without error.  And a Close whose WAL fails to close
    (here: it is closed already) returns that error without closing the
    KV store, so no error of the KV store could be collected. *)
Lemma handlers_answer_after_Close :
  returned (Close (WR := list byte) fresh) = Ok tt
  /\ calls (Close (WR := list byte) fresh) = [CallWalClose; CallDBClose]
  /\ returned (Fence (WR := list byte) (fenceReq 1) freshClosed)
     = Ok {| proto.FenceResponse_Epoch := 1;
             proto.FenceResponse_HeadIndex := eid 0 0 |}
  /\ is_Err (returned (Fence (WR := list byte) (fenceReq 1) freshClosed))
     = false
  /\ returned (Close (WR := list byte) freshClosed) = Err ErrWalClosed
  /\ calls (Close (WR := list byte) freshClosed) = [CallWalClose].
Proof.
  repeat split.
Qed.

(** * The controller as a state machine *)

Section StateMachineFacts.

Context {W D WR : Type} {walI : Wal W} {dbI : DB D WR}.
Variable Unmarshal : list byte -> result WR.

Abbreviation controller := (followerController W D).

(** The paths of [Fence] and of [Truncate]. *)
Lemma Fence_paths (fc : controller) (req : proto.FenceRequest) :
  Fence (WR := WR) req fc =
    if proto.FenceRequest_Epoch req <=? epoch fc
    then {| returned := Err ErrorInvalidEpoch; after := fc; calls := [] |}
    else {| returned :=
              Ok {| proto.FenceResponse_Epoch := proto.FenceRequest_Epoch req;
                    proto.FenceResponse_HeadIndex := toProto (headIndex fc) |};
            after := set_status Fenced
                       (set_epoch (proto.FenceRequest_Epoch req) fc);
            calls := [] |}.
Proof.
  unfold Fence, bind, get, check, checkEpochLaterIn, modify, ret, fail; simpl.
  destruct (proto.FenceRequest_Epoch req <=? epoch fc); reflexivity.
Qed.

Lemma Truncate_paths (fc : controller) (req : proto.TruncateRequest) :
  Truncate (WR := WR) req fc =
    if negb (Status_eqb (status fc) Fenced)
    then {| returned := Err ErrorInvalidStatus; after := fc; calls := [] |}
    else if negb (proto.TruncateRequest_Epoch req =? epoch fc)
    then {| returned := Err ErrorInvalidEpoch; after := fc; calls := [] |}
    else
      let fc1 :=
        set_epoch (proto.TruncateRequest_Epoch req) (set_status Follower fc) in
      let id := EntryIdFromProto (proto.TruncateRequest_HeadIndex req) in
      match TruncateLog (wal fc) id with
      | (Err e, w) =>
          {| returned := Err e; after := set_wal w fc1;
             calls := [CallWalTruncateLog id] |}
      | (Ok h, w) =>
          {| returned :=
               Ok {| proto.TruncateResponse_Epoch :=
                       proto.TruncateRequest_Epoch req;
                     proto.TruncateResponse_HeadIndex := toProto h |};
             after := set_headIndex h (set_wal w fc1);
             calls := [CallWalTruncateLog id] |}
      end.
Proof.
  unfold Truncate, bind, get, check, checkStatus, checkEpochEqualIn, modify,
    ret, fail, walTruncateLog; simpl.
  destruct (negb (Status_eqb (status fc) Fenced)); [reflexivity |].
  destruct (negb (proto.TruncateRequest_Epoch req =? epoch fc));
    [reflexivity |]. simpl.
  destruct (TruncateLog (wal fc)
              (EntryIdFromProto (proto.TruncateRequest_HeadIndex req)))
    as [[h | e] w]; reflexivity.
Qed.

(** Every change of status a call can make. *)
Lemma step_status (op : Op) (fc : controller) :
  status (step Unmarshal op fc) = status fc
  \/ (exists req, op = OpFence req
                  /\ epoch fc < proto.FenceRequest_Epoch req
                  /\ status (step Unmarshal op fc) = Fenced)
  \/ (status fc = Fenced
      /\ status (step Unmarshal op fc) = Follower
      /\ ((exists req, op = OpTruncate req
                       /\ proto.TruncateRequest_Epoch req = epoch fc)
          \/ (exists req, op = OpAddEntry req
                          /\ epoch fc <= proto.AddEntryRequest_Epoch req))).
Proof.
  destruct op as [req | req | req |]; unfold step.
  - rewrite Fence_paths.
    destruct (N.leb_spec (proto.FenceRequest_Epoch req) (epoch fc)); simpl;
      [left; reflexivity |].
    right; left. exists req. auto.
  - rewrite Truncate_paths.
    destruct (status fc) eqn:Hst; simpl; try (left; exact Hst).
    destruct (N.eqb_spec (proto.TruncateRequest_Epoch req) (epoch fc)); simpl;
      [| left; assumption].
    right; right.
    destruct (TruncateLog (wal fc)
                (EntryIdFromProto (proto.TruncateRequest_HeadIndex req)))
      as [[h | e'] w]; simpl;
      (split; [reflexivity | split; [reflexivity | left; exists req; auto]]).
  - rewrite addEntry_paths.
    destruct (status fc) eqn:Hst; simpl; try (left; exact Hst).
    + destruct (N.ltb_spec (proto.AddEntryRequest_Epoch req) (epoch fc)); simpl;
        [left; assumption |].
      right; right.
      destruct (Append (wal fc) (proto.AddEntryRequest_Entry req))
        as [[e |] w1]; simpl;
        [split; [reflexivity | split; [reflexivity | right; exists req; auto]] |].
      destruct (ReadSync w1 (commitIndex fc)
                  (EntryIdFromProto (proto.AddEntryRequest_CommitIndex req))
                  (applyEntry Unmarshal) (db fc, [])) as [err [d brs]]; simpl.
      split; [reflexivity | split; [reflexivity | right; exists req; auto]].
    + left.
      destruct (proto.AddEntryRequest_Epoch req <? epoch fc); simpl;
        [assumption |].
      destruct (Append (wal fc) (proto.AddEntryRequest_Entry req))
        as [[e |] w1]; simpl; [reflexivity |].
      destruct (ReadSync w1 (commitIndex fc)
                  (EntryIdFromProto (proto.AddEntryRequest_CommitIndex req))
                  (applyEntry Unmarshal) (db fc, [])) as [err [d brs]];
        reflexivity.
  - left. rewrite Close_paths.
    destruct (WalClose (wal fc)) as [[e |] w]; simpl; [reflexivity |].
    destruct (DBClose (db fc)) as [err d]; reflexivity.
Qed.

Lemma step_keeps_membership (op : Op) (fc : controller) :
  status fc <> NotMember -> status (step Unmarshal op fc) <> NotMember.
Proof.
  intros Hm.
  destruct (step_status op fc) as [H | [(req & _ & _ & H) | (_ & H & _)]];
    rewrite H; [assumption | discriminate | discriminate].
Qed.

Lemma run_keeps_membership (ops : list Op) (fc : controller) :
  status fc <> NotMember -> status (run Unmarshal ops fc) <> NotMember.
Proof.
  revert fc. induction ops as [| op ops IH]; intros fc Hm; [exact Hm |].
  apply (IH (step Unmarshal op fc)). apply step_keeps_membership, Hm.
Qed.

(** X1.  The status changes only in three ways: a Fence with a later epoch
    makes it Fenced; a Truncate at the controller's epoch, or an AddEntry
    request with an epoch no less than the controller's, makes a Fenced
    controller a Follower.  Every other call, and every rejected or failed
    guard, leaves the status as it was. *)
Theorem status_changes_only_by_protocol (op : Op) (fc : controller) :
  status (step Unmarshal op fc) = status fc
  \/ (exists req, op = OpFence req
                  /\ epoch fc < proto.FenceRequest_Epoch req
                  /\ status (step Unmarshal op fc) = Fenced)
  \/ (status fc = Fenced
      /\ status (step Unmarshal op fc) = Follower
      /\ ((exists req, op = OpTruncate req
                       /\ proto.TruncateRequest_Epoch req = epoch fc)
          \/ (exists req, op = OpAddEntry req
                          /\ epoch fc <= proto.AddEntryRequest_Epoch req))).
Proof. exact (step_status op fc). Qed.

(** X2.  A controller that is NotMember refuses Truncate and AddEntry with
    InvalidStatus: the controller is as it was and no call reaches the WAL
    or the KV store; an AddEntries stream ends on its first request with
    that error and nothing sent.  Only a Fence with a later epoch takes a
    controller out of NotMember. *)
Theorem NotMember_admits_only_Fence (fc : controller) :
  status fc = NotMember ->
  (forall req,
      Truncate (WR := WR) req fc
      = {| returned := Err ErrorInvalidStatus; after := fc; calls := [] |})
  /\ (forall req,
      addEntry Unmarshal req fc
      = {| returned := Err ErrorInvalidStatus; after := fc; calls := [] |})
  /\ (forall recvErr req sendErr rest,
      AddEntries Unmarshal recvErr ((req, sendErr) :: rest) fc
      = ({| sent := []; ended := ErrorInvalidStatus |}, fc, []))
  /\ (forall op,
      status (step Unmarshal op fc) <> NotMember ->
      exists req, op = OpFence req
                  /\ epoch fc < proto.FenceRequest_Epoch req
                  /\ status (step Unmarshal op fc) = Fenced).
Proof.
  intros Hst.
  assert (Hadd : forall req,
             addEntry Unmarshal req fc
             = {| returned := Err ErrorInvalidStatus; after := fc;
                  calls := [] |}).
  { intros req. rewrite addEntry_paths, Hst. reflexivity. }
  split; [| split; [exact Hadd | split]].
  - intros req. rewrite Truncate_paths, Hst. reflexivity.
  - intros recvErr req sendErr rest. simpl. rewrite Hadd. reflexivity.
  - intros op Hleft.
    destruct (step_status op fc) as [H | [H | (H & _)]].
    + congruence.
    + exact H.
    + congruence.
Qed.

(** X3.  Once a controller has left NotMember it never is NotMember
    again, whatever calls follow. *)
Theorem NotMember_is_never_entered (ops : list Op) (fc : controller) :
  status fc <> NotMember ->
  Forall (fun s => status s <> NotMember) (observed Unmarshal ops fc).
Proof.
  revert fc. induction ops as [| op ops IH]; intros fc Hm; simpl;
    constructor.
  - apply step_keeps_membership, Hm.
  - apply IH. apply step_keeps_membership, Hm.
Qed.

(** X4.  After a Fence at some epoch, accepted or not, the controller's
    epoch is no less than that epoch: the same Fence again, and every Fence
    with an epoch no greater, is rejected with InvalidEpoch and changes
    nothing. *)
Theorem Fence_is_not_repeatable (fc : controller)
    (req req' : proto.FenceRequest) :
  proto.FenceRequest_Epoch req' <= proto.FenceRequest_Epoch req ->
  let fc1 := after (Fence (WR := WR) req fc) in
  proto.FenceRequest_Epoch req <= epoch fc1
  /\ Fence (WR := WR) req' fc1
     = {| returned := Err ErrorInvalidEpoch; after := fc1; calls := [] |}.
Proof.
  intros Hle. cbv zeta.
  assert (Hep : proto.FenceRequest_Epoch req
                <= epoch (after (Fence (WR := WR) req fc))).
  { rewrite Fence_paths.
    destruct (N.leb_spec (proto.FenceRequest_Epoch req) (epoch fc)); simpl; lia. }
  split; [exact Hep |].
  rewrite (Fence_paths (after (Fence (WR := WR) req fc)) req').
  assert (Hb : (proto.FenceRequest_Epoch req'
                <=? epoch (after (Fence (WR := WR) req fc))) = true)
    by (apply N.leb_le; lia).
  rewrite Hb. reflexivity.
Qed.

(** X5.  After an accepted Fence, a Truncate is admitted exactly when it
    carries the epoch of that Fence: with another epoch it is rejected
    with InvalidEpoch and nothing changes; with that epoch it calls the
    WAL once, makes the controller a Follower and returns what the WAL
    returned, the new head or the error. *)
Theorem Truncate_pairs_with_its_Fence (fc : controller)
    (freq : proto.FenceRequest) (treq : proto.TruncateRequest) :
  epoch fc < proto.FenceRequest_Epoch freq ->
  let fc1 := after (Fence (WR := WR) freq fc) in
  let o := Truncate (WR := WR) treq fc1 in
  let id := EntryIdFromProto (proto.TruncateRequest_HeadIndex treq) in
  (proto.TruncateRequest_Epoch treq <> proto.FenceRequest_Epoch freq ->
   o = {| returned := Err ErrorInvalidEpoch; after := fc1; calls := [] |})
  /\ (proto.TruncateRequest_Epoch treq = proto.FenceRequest_Epoch freq ->
      calls o = [CallWalTruncateLog id]
      /\ status (after o) = Follower
      /\ epoch (after o) = proto.FenceRequest_Epoch freq
      /\ returned o =
         match fst (TruncateLog (wal fc) id) with
         | Ok h =>
             Ok {| proto.TruncateResponse_Epoch := proto.FenceRequest_Epoch freq;
                   proto.TruncateResponse_HeadIndex := toProto h |}
         | Err e => Err e
         end).
Proof.
  intros Hlt. cbv zeta. rewrite Fence_paths.
  apply N.leb_gt in Hlt. rewrite Hlt. cbn [after].
  rewrite Truncate_paths. cbn [status set_status set_epoch epoch wal negb
                               Status_eqb].
  split; intros Hep.
  - apply N.eqb_neq in Hep. rewrite Hep. reflexivity.
  - rewrite <- Hep, N.eqb_refl. cbn [negb]. cbv zeta.
    destruct (TruncateLog (wal fc)
                (EntryIdFromProto (proto.TruncateRequest_HeadIndex treq)))
      as [[h | e] w]; simpl; repeat split.
Qed.

(** X6.  A Truncate that got past both guards leaves a Follower, whether
    the WAL truncated or failed: until the next Fence every further
    Truncate, the same one included, is InvalidStatus and changes
    nothing. *)
Theorem Truncate_is_not_repeatable (fc : controller)
    (req req' : proto.TruncateRequest) :
  status fc = Fenced ->
  proto.TruncateRequest_Epoch req = epoch fc ->
  let fc1 := after (Truncate (WR := WR) req fc) in
  status fc1 = Follower
  /\ Truncate (WR := WR) req' fc1
     = {| returned := Err ErrorInvalidStatus; after := fc1; calls := [] |}.
Proof.
  intros Hst Hep. cbv zeta.
  assert (Hf : status (after (Truncate (WR := WR) req fc)) = Follower).
  { rewrite Truncate_paths, Hst, Hep, N.eqb_refl. simpl.
    destruct (TruncateLog (wal fc)
                (EntryIdFromProto (proto.TruncateRequest_HeadIndex req)))
      as [[h | e] w]; reflexivity. }
  split; [exact Hf |].
  rewrite (Truncate_paths (after (Truncate (WR := WR) req fc)) req'), Hf.
  reflexivity.
Qed.

(** X7.  When the WAL refuses the entry of a request that passed both
    guards, addEntry returns the WAL's error with the status already
    Follower and the epoch already the request's.  The head index, the
    commit index and the KV store are as before, and the Append is the
    only call made. *)
Theorem addEntry_append_error_keeps_assignments (fc : controller)
    (req : proto.AddEntryRequest) (e : error) (w1 : W) :
  status fc = Follower \/ status fc = Fenced ->
  epoch fc <= proto.AddEntryRequest_Epoch req ->
  Append (wal fc) (proto.AddEntryRequest_Entry req) = (Some e, w1) ->
  let o := addEntry Unmarshal req fc in
  returned o = Err e
  /\ status (after o) = Follower
  /\ epoch (after o) = proto.AddEntryRequest_Epoch req
  /\ wal (after o) = w1
  /\ headIndex (after o) = headIndex fc
  /\ commitIndex (after o) = commitIndex fc
  /\ db (after o) = db fc
  /\ calls o = [CallWalAppend (proto.AddEntryRequest_Entry req)].
Proof.
  intros Hst Hep Happ. cbv zeta.
  rewrite addEntry_paths, (status_guard_passes fc Hst).
  apply N.ltb_ge in Hep. rewrite Hep, Happ. simpl. repeat split.
Qed.

(** X8.  When the entry is appended and the read of the commit range
    fails (in the WAL, in decoding or in the KV store), addEntry returns
    that error and sends no response, yet the entry stays appended, the
    head index is the id of the entry, the commit index is the request's
    and the KV store keeps the writes processed before the failure. *)
Theorem addEntry_apply_error_keeps_assignments (fc : controller)
    (req : proto.AddEntryRequest) (w1 : W) (e : error) (d : D)
    (brs : list WR) :
  status fc = Follower \/ status fc = Fenced ->
  epoch fc <= proto.AddEntryRequest_Epoch req ->
  Append (wal fc) (proto.AddEntryRequest_Entry req) = (None, w1) ->
  ReadSync w1 (commitIndex fc) (commitOf req) (applyEntry Unmarshal) (db fc, [])
  = (Some e, (d, brs)) ->
  let o := addEntry Unmarshal req fc in
  returned o = Err e
  /\ status (after o) = Follower
  /\ epoch (after o) = proto.AddEntryRequest_Epoch req
  /\ wal (after o) = w1
  /\ headIndex (after o) = EntryIdFromProto (entryIdOf req)
  /\ commitIndex (after o) = commitOf req
  /\ db (after o) = d
  /\ calls o = CallWalAppend (proto.AddEntryRequest_Entry req)
               :: CallWalReadSync (commitIndex fc) (commitOf req)
               :: map CallDBProcessWrite brs.
Proof.
  intros Hst Hep Happ Hread. cbv zeta.
  rewrite addEntry_paths, (status_guard_passes fc Hst).
  apply N.ltb_ge in Hep. rewrite Hep, Happ. cbv zeta. rewrite Hread.
  simpl. repeat split.
Qed.

(** *** Responses and the stream *)

Lemma addEntry_response (fc : controller) (req : proto.AddEntryRequest)
    (resp : proto.AddEntryResponse) :
  returned (addEntry Unmarshal req fc) = Ok resp ->
  (resp = rejection req
   /\ proto.AddEntryRequest_Epoch req < epoch fc
   /\ after (addEntry Unmarshal req fc) = fc)
  \/ (resp = acceptance req
      /\ epoch fc <= proto.AddEntryRequest_Epoch req
      /\ status (after (addEntry Unmarshal req fc)) = Follower
      /\ epoch (after (addEntry Unmarshal req fc))
         = proto.AddEntryRequest_Epoch req
      /\ headIndex (after (addEntry Unmarshal req fc))
         = EntryIdFromProto (entryIdOf req)
      /\ commitIndex (after (addEntry Unmarshal req fc)) = commitOf req).
Proof.
  rewrite addEntry_paths.
  destruct (negb (Status_eqb (status fc) Follower)
            && negb (Status_eqb (status fc) Fenced)); [discriminate |].
  destruct (N.ltb_spec (proto.AddEntryRequest_Epoch req) (epoch fc)); simpl.
  - intros H'; injection H' as <-. left. auto.
  - destruct (Append (wal fc) (entryOf req)) as [[e |] w1]; simpl;
      [discriminate |].
    destruct (ReadSync w1 (commitIndex fc) (commitOf req)
                (applyEntry Unmarshal) (db fc, [])) as [[e |] [d brs]]; simpl;
      [discriminate |].
    intros H'; injection H' as <-. right. repeat split; auto.
Qed.

(** X9.  The responses an AddEntries stream has sent answer the first
    requests of the stream, one each and in order: the n-th response is
    the rejection or the acceptance of the n-th request, and it carries
    the epoch of that request. *)
Theorem AddEntries_answers_in_order recvErr
    (incoming : list (proto.AddEntryRequest * option error)) (fc : controller) :
  let s := fst (fst (AddEntries Unmarshal recvErr incoming fc)) in
  let answered := firstn (length (sent s)) (map fst incoming) in
  (length (sent s) <= length incoming)%nat
  /\ Forall2 (fun req resp => resp = rejection req \/ resp = acceptance req)
       answered (sent s)
  /\ map proto.AddEntryResponse_Epoch (sent s)
     = map proto.AddEntryRequest_Epoch answered.
Proof.
  cbv zeta. revert fc.
  induction incoming as [| [req sendErr] rest IH]; intros fc; simpl.
  - repeat split; auto with arith.
  - destruct (returned (addEntry Unmarshal req fc)) as [res | err] eqn:Hret;
      simpl; [| repeat split; auto with arith].
    destruct sendErr as [err |]; simpl; [repeat split; auto with arith |].
    specialize (IH (after (addEntry Unmarshal req fc))).
    destruct (AddEntries Unmarshal recvErr rest
                (after (addEntry Unmarshal req fc))) as [[s fc'] cs].
    simpl in *. destruct IH as (Hlen & Hall & Hep).
    assert (Hres : res = rejection req \/ res = acceptance req).
    { destruct (addEntry_response fc req res Hret) as [(H' & _) | (H' & _)];
        auto. }
    split; [lia |]. split; [constructor; assumption |].
    f_equal; [| exact Hep].
    destruct Hres as [-> | ->]; reflexivity.
Qed.

(** X10.  How an AddEntries stream ends.  When every request was answered
    the loop ends with the error of the receive.  Otherwise it ends at the
    first request left without a response, on the controller the answered
    requests made, with the error addEntry returned for that request or
    with the error of the send of its response. *)
Theorem AddEntries_ends_at_first_failure recvErr
    (incoming : list (proto.AddEntryRequest * option error)) (fc : controller) :
  let s := fst (fst (AddEntries Unmarshal recvErr incoming fc)) in
  let n := length (sent s) in
  let reached :=
    run Unmarshal (map OpAddEntry (firstn n (map fst incoming))) fc in
  match nth_error incoming n with
  | None => ended s = recvErr
  | Some (req, sendErr) =>
      returned (addEntry Unmarshal req reached) = Err (ended s)
      \/ (is_Err (returned (addEntry Unmarshal req reached)) = false
          /\ sendErr = Some (ended s))
  end.
Proof.
  cbv zeta. revert fc.
  induction incoming as [| [req sendErr] rest IH]; intros fc; simpl.
  - reflexivity.
  - destruct (returned (addEntry Unmarshal req fc)) as [res | err] eqn:Hret;
      simpl; [| left; exact Hret].
    destruct sendErr as [err |]; simpl.
    + right. rewrite Hret. auto.
    + specialize (IH (after (addEntry Unmarshal req fc))).
      destruct (AddEntries Unmarshal recvErr rest
                  (after (addEntry Unmarshal req fc))) as [[s fc'] cs].
      simpl in *. exact IH.
Qed.

(** X11.  A request delivered again right after it was accepted passes
    both guards again and is handed to the WAL again: addEntry does not
    recognise a repeat.  It reads the empty range from the commit index to
    itself, and if the WAL takes the entry a second time the response is
    the same and status, epoch, head index and commit index stay as the
    first delivery left them. *)
Theorem addEntry_redelivery_appends_again (fc : controller)
    (req : proto.AddEntryRequest) :
  returned (addEntry Unmarshal req fc) = Ok (acceptance req) ->
  let fc1 := after (addEntry Unmarshal req fc) in
  let o := addEntry Unmarshal req fc1 in
  hd_error (calls o) = Some (CallWalAppend (proto.AddEntryRequest_Entry req))
  /\ (forall c, nth_error (calls o) 1 = Some c ->
                c = CallWalReadSync (commitOf req) (commitOf req))
  /\ (forall resp, returned o = Ok resp ->
        resp = acceptance req
        /\ status (after o) = status fc1
        /\ epoch (after o) = epoch fc1
        /\ headIndex (after o) = headIndex fc1
        /\ commitIndex (after o) = commitIndex fc1).
Proof.
  intros Hacc. cbv zeta.
  destruct (addEntry_response fc req _ Hacc)
    as [(Hrej & _) | (_ & _ & Hst & Hep & Hhd & Hci)]; [discriminate |].
  set (fc1 := after (addEntry Unmarshal req fc)) in *.
  rewrite (addEntry_paths Unmarshal fc1 req), Hst, Hep, N.ltb_irrefl. simpl.
  destruct (Append (wal fc1) (entryOf req)) as [[e |] w1]; simpl.
  - split; [reflexivity |]. split; discriminate.
  - rewrite Hci.
    destruct (ReadSync w1 (commitOf req) (commitOf req)
                (applyEntry Unmarshal) (db fc1, [])) as [[e |] [d brs]]; simpl.
    + split; [reflexivity |]. split; [| discriminate].
      intros c Hc; injection Hc as <-; reflexivity.
    + split; [reflexivity |]. split.
      * intros c Hc; injection Hc as <-; reflexivity.
      * intros resp Hresp; injection Hresp as <-.
        repeat split; congruence.
Qed.

(** *** What reaches the collaborators, and what never changes *)

Lemma not_in_writes (c : Call WR) (brs : list WR) :
  isDBCall c = false -> ~ In c (map CallDBProcessWrite brs).
Proof.
  intros Hc Hin. apply in_map_iff in Hin as (br & <- & _). discriminate.
Qed.

(** X12.  Each call to a collaborator comes from its handler, past the
    guards.  An Append is made only by an AddEntry request that passed the
    status and epoch guards, with the entry of that request, once.  A
    TruncateLog is made only by a Truncate of a Fenced controller at the
    controller's epoch.  A write reaches the KV store only from an
    AddEntry request whose entry the WAL has just appended. *)
Theorem collaborator_calls_come_past_the_guards (op : Op) (fc : controller) :
  (forall e, In (CallWalAppend e) (made Unmarshal op fc) ->
     exists req, op = OpAddEntry req
                 /\ e = proto.AddEntryRequest_Entry req
                 /\ (status fc = Follower \/ status fc = Fenced)
                 /\ epoch fc <= proto.AddEntryRequest_Epoch req
                 /\ filter isWalAppend (made Unmarshal op fc)
                    = [CallWalAppend e])
  /\ (forall id, In (CallWalTruncateLog id) (made Unmarshal op fc) ->
     exists req, op = OpTruncate req
                 /\ id = EntryIdFromProto (proto.TruncateRequest_HeadIndex req)
                 /\ status fc = Fenced
                 /\ proto.TruncateRequest_Epoch req = epoch fc)
  /\ (forall br, In (CallDBProcessWrite br) (made Unmarshal op fc) ->
     exists req, op = OpAddEntry req
                 /\ (status fc = Follower \/ status fc = Fenced)
                 /\ epoch fc <= proto.AddEntryRequest_Epoch req
                 /\ fst (Append (wal fc) (proto.AddEntryRequest_Entry req))
                    = None).
Proof.
  destruct op as [req | req | req |]; unfold made.
  - rewrite Fence_paths.
    destruct (proto.FenceRequest_Epoch req <=? epoch fc); simpl;
      repeat split; intros ? [].
  - rewrite Truncate_paths.
    destruct (Status_eqb (status fc) Fenced) eqn:Hst; simpl;
      [| repeat split; intros ? []].
    apply Status_eqb_eq in Hst.
    destruct (N.eqb_spec (proto.TruncateRequest_Epoch req) (epoch fc)); simpl;
      [| repeat split; intros ? []].
    destruct (TruncateLog (wal fc)
                (EntryIdFromProto (proto.TruncateRequest_HeadIndex req)))
      as [[h | e'] w]; simpl;
      (split; [intros ? [H' | []]; discriminate |];
       split; [| intros ? [H' | []]; discriminate];
       intros id [H' | []]; injection H' as <-; exists req; repeat split; auto).
  - rewrite addEntry_paths.
    destruct (negb (Status_eqb (status fc) Follower)
              && negb (Status_eqb (status fc) Fenced)) eqn:Hg; simpl;
      [repeat split; intros ? [] |].
    assert (Hst : status fc = Follower \/ status fc = Fenced)
      by (destruct (status fc); simpl in Hg; auto; discriminate).
    destruct (N.ltb_spec (proto.AddEntryRequest_Epoch req) (epoch fc)); simpl;
      [repeat split; intros ? [] |].
    destruct (Append (wal fc) (entryOf req)) as [[e |] w1] eqn:Happ; simpl.
    + split; [| split; intros ? [H' | []]; discriminate].
      intros e0 [H' | []]; injection H' as <-. exists req. repeat split; auto.
    + destruct (ReadSync w1 (commitIndex fc) (commitOf req)
                  (applyEntry Unmarshal) (db fc, [])) as [err [d brs]]; simpl.
      split; [| split].
      * intros e0 [H' | [H' | Hin]]; [| discriminate |].
        -- injection H' as <-. exists req.
           rewrite filter_isWalAppend_writes. repeat split; auto.
        -- exfalso. revert Hin. apply not_in_writes. reflexivity.
      * intros id [H' | [H' | Hin]]; [discriminate | discriminate |].
        exfalso. revert Hin. apply not_in_writes. reflexivity.
      * intros br _. exists req. rewrite Happ. repeat split; auto.
  - rewrite Close_paths.
    destruct (WalClose (wal fc)) as [[e |] w]; simpl.
    + repeat split; intros ? [H' | []]; discriminate.
    + destruct (DBClose (db fc)) as [err d]; simpl.
      repeat split; intros ? [H' | [H' | []]]; discriminate.
Qed.

Lemma step_keeps_shardId_closing (op : Op) (fc : controller) :
  shardId (step Unmarshal op fc) = shardId fc
  /\ closing (step Unmarshal op fc) = closing fc.
Proof.
  destruct op as [req | req | req |]; unfold step.
  - rewrite Fence_paths.
    destruct (proto.FenceRequest_Epoch req <=? epoch fc); simpl; auto.
  - rewrite Truncate_paths.
    destruct (negb (Status_eqb (status fc) Fenced)); simpl; auto.
    destruct (negb (proto.TruncateRequest_Epoch req =? epoch fc)); simpl; auto.
    destruct (TruncateLog (wal fc)
                (EntryIdFromProto (proto.TruncateRequest_HeadIndex req)))
      as [[h | e'] w]; simpl; auto.
  - rewrite addEntry_paths.
    destruct (negb (Status_eqb (status fc) Follower)
              && negb (Status_eqb (status fc) Fenced)); simpl; auto.
    destruct (proto.AddEntryRequest_Epoch req <? epoch fc); simpl; auto.
    destruct (Append (wal fc) (entryOf req)) as [[e |] w1]; simpl; auto.
    destruct (ReadSync w1 (commitIndex fc) (commitOf req)
                (applyEntry Unmarshal) (db fc, [])) as [err [d brs]]; simpl.
    auto.
  - rewrite Close_paths.
    destruct (WalClose (wal fc)) as [[e |] w]; simpl; auto.
    destruct (DBClose (db fc)) as [err d]; simpl; auto.
Qed.

(** X13.  No call assigns the shard id or [closing].  A controller made
    by NewFollowerController keeps the shard id it was made with, and its
    [closing] is false after every sequence of calls, Close included. *)
Theorem shardId_and_closing_are_never_assigned (ops : list Op) :
  (forall fc : controller,
      shardId (run Unmarshal ops fc) = shardId fc
      /\ closing (run Unmarshal ops fc) = closing fc)
  /\ (forall shard (w : W) (newDB : result D) (fc : controller),
      NewFollowerController shard w newDB = Ok fc ->
      shardId (run Unmarshal ops fc) = shard
      /\ closing (run Unmarshal ops fc) = false).
Proof.
  assert (Hrun : forall fc : controller,
             shardId (run Unmarshal ops fc) = shardId fc
             /\ closing (run Unmarshal ops fc) = closing fc).
  { induction ops as [| op ops IH]; intros fc; [split; reflexivity |].
    change (run Unmarshal (op :: ops) fc)
      with (run Unmarshal ops (step Unmarshal op fc)).
    destruct (IH (step Unmarshal op fc)) as [-> ->].
    apply step_keeps_shardId_closing. }
  split; [exact Hrun |].
  intros shard w newDB fc Hnew.
  destruct (Hrun fc) as [-> ->].
  unfold NewFollowerController in Hnew.
  destruct newDB as [d | e]; [| discriminate].
  destruct (GetHighestEntryOfEpoch w MaxEpoch) as [h | e]; [| discriminate].
  injection Hnew as <-. split; reflexivity.
Qed.

(** X14.  Fencing holds.  Once a Fence at epoch E was accepted, then
    after any further calls a request of an older leader changes nothing:
    an AddEntry request with an epoch below E is answered with the
    rejection, without a call to the WAL or the KV store; a Truncate with
    an epoch below E fails; a Fence with an epoch no greater than E is
    InvalidEpoch.  The controller is the same after each of them. *)
Theorem fenced_out_leaders_stay_out (fc : controller)
    (freq : proto.FenceRequest) (ops : list Op) :
  epoch fc < proto.FenceRequest_Epoch freq ->
  let fc1 := run Unmarshal ops (after (Fence (WR := WR) freq fc)) in
  (forall req,
      proto.AddEntryRequest_Epoch req < proto.FenceRequest_Epoch freq ->
      addEntry Unmarshal req fc1
      = {| returned := Ok (rejection req); after := fc1; calls := [] |})
  /\ (forall req,
      proto.TruncateRequest_Epoch req < proto.FenceRequest_Epoch freq ->
      (returned (Truncate (WR := WR) req fc1) = Err ErrorInvalidStatus
       \/ returned (Truncate (WR := WR) req fc1) = Err ErrorInvalidEpoch)
      /\ after (Truncate (WR := WR) req fc1) = fc1
      /\ calls (Truncate (WR := WR) req fc1) = [])
  /\ (forall req,
      proto.FenceRequest_Epoch req <= proto.FenceRequest_Epoch freq ->
      Fence (WR := WR) req fc1
      = {| returned := Err ErrorInvalidEpoch; after := fc1; calls := [] |}).
Proof.
  intros Hlt. cbv zeta.
  set (fc0 := after (Fence (WR := WR) freq fc)).
  assert (H0 : status fc0 = Fenced /\ epoch fc0 = proto.FenceRequest_Epoch freq).
  { unfold fc0. rewrite Fence_paths. apply N.leb_gt in Hlt. rewrite Hlt.
    split; reflexivity. }
  destruct H0 as [Hst0 Hep0].
  set (fc1 := run Unmarshal ops fc0).
  assert (Hm : status fc1 <> NotMember)
    by (apply run_keeps_membership; rewrite Hst0; discriminate).
  assert (Hep : proto.FenceRequest_Epoch freq <= epoch fc1)
    by (rewrite <- Hep0; apply run_epoch_mono).
  split; [| split].
  - intros req Hreq. rewrite addEntry_paths.
    assert (Hg : negb (Status_eqb (status fc1) Follower)
                 && negb (Status_eqb (status fc1) Fenced) = false)
      by (destruct (status fc1); [congruence | reflexivity | reflexivity]).
    rewrite Hg.
    assert (Hs : (proto.AddEntryRequest_Epoch req <? epoch fc1) = true)
      by (apply N.ltb_lt; lia).
    rewrite Hs. reflexivity.
  - intros req Hreq. rewrite Truncate_paths.
    destruct (negb (Status_eqb (status fc1) Fenced)); simpl; [auto |].
    assert (Hs : (proto.TruncateRequest_Epoch req =? epoch fc1) = false)
      by (apply N.eqb_neq; lia).
    rewrite Hs. simpl. auto.
  - intros req Hreq. rewrite Fence_paths.
    assert (Hs : (proto.FenceRequest_Epoch req <=? epoch fc1) = true)
      by (apply N.leb_le; lia).
    rewrite Hs. reflexivity.
Qed.


(** X16.  The accessors read the controller and touch nothing: after an
    accepted Fence, Epoch() returns the epoch of the request and Status()
    returns Fenced, each leaving the controller as it is and calling no
    collaborator. *)
Theorem accessors_read_what_Fence_assigned (fc : controller)
    (req : proto.FenceRequest) :
  epoch fc < proto.FenceRequest_Epoch req ->
  let fc1 := after (Fence (WR := WR) req fc) in
  Epoch (WR := WR) fc1
  = {| returned := Ok (proto.FenceRequest_Epoch req); after := fc1;
       calls := [] |}
  /\ Status' (WR := WR) fc1
     = {| returned := Ok Fenced; after := fc1; calls := [] |}.
Proof.
  intros Hlt. cbv zeta. rewrite Fence_paths.
  apply N.leb_gt in Hlt. rewrite Hlt.
  split; reflexivity.
Qed.

(** X17.  NewFollowerController fails with the error of kv.NewDB when
    that fails, whatever the WAL holds, and otherwise with the error of
    the WAL's query for its highest entry.  When both succeed the new
    controller is NotMember at epoch 0, its commit index is (0,0), its
    head index is the highest entry the WAL reported for MaxEpoch, and it
    accepts a Fence exactly for an epoch of 1 or more. *)
Theorem NewFollowerController_outcome shard (w : W) (newDB : result D) :
  match newDB with
  | Err e => NewFollowerController shard w newDB = Err e
  | Ok d =>
      match GetHighestEntryOfEpoch w MaxEpoch with
      | Err e => NewFollowerController shard w newDB = Err e
      | Ok h =>
          exists fc : controller,
            NewFollowerController shard w newDB = Ok fc
            /\ status fc = NotMember /\ epoch fc = 0
            /\ commitIndex fc = EntryId_zero /\ headIndex fc = h
            /\ wal fc = w /\ db fc = d
            /\ forall req,
                 is_Err (returned (Fence (WR := WR) req fc)) = false
                 <-> 1 <= proto.FenceRequest_Epoch req
      end
  end.
Proof.
  unfold NewFollowerController.
  destruct newDB as [d | e]; [| reflexivity].
  destruct (GetHighestEntryOfEpoch w MaxEpoch) as [h | e]; [| reflexivity].
  eexists. split; [reflexivity |]. simpl. repeat split; auto.
  - rewrite Fence_paths. simpl.
    destruct (N.leb_spec (proto.FenceRequest_Epoch req) 0); simpl;
      [discriminate | intros _; lia].
  - rewrite Fence_paths. simpl.
    destruct (N.leb_spec (proto.FenceRequest_Epoch req) 0); simpl;
      [lia | reflexivity].
Qed.

End StateMachineFacts.

(** ** The state machine at work on the in-memory collaborators *)

Lemma NotMember_admits_only_Fence_witness :
  status fresh = NotMember
  /\ returned (Truncate (WR := list byte) (truncateReq 1 (eid 0 0)) fresh)
     = Err ErrorInvalidStatus
  /\ returned (addEntry rawUnmarshal (addReq 1 (entry 1 0 batchA) (eid 0 0)) fresh)
     = Err ErrorInvalidStatus
  /\ status (step rawUnmarshal (OpFence (fenceReq 5)) fresh) <> NotMember
  /\ exists req,
       OpFence (fenceReq 5) = OpFence req
       /\ epoch fresh < proto.FenceRequest_Epoch req
       /\ status (step rawUnmarshal (OpFence (fenceReq 5)) fresh) = Fenced.
Proof.
  assert (Hs : status fresh = NotMember) by reflexivity.
  assert (Hl : status (step rawUnmarshal (OpFence (fenceReq 5)) fresh)
               <> NotMember) by discriminate.
  destruct (NotMember_admits_only_Fence rawUnmarshal fresh Hs)
    as (Ht & Ha & _ & Hf).
  split; [exact Hs |].
  split; [rewrite Ht; reflexivity |].
  split; [rewrite Ha; reflexivity |].
  split; [exact Hl |].
  exact (Hf (OpFence (fenceReq 5)) Hl).
Defined.

Lemma NotMember_is_never_entered_witness :
  status fenced5 <> NotMember
  /\ Forall (fun s => status s <> NotMember)
       (observed rawUnmarshal
          [OpTruncate (truncateReq 5 (eid 4 7)); OpClose;
           OpAddEntry (addReq 5 (entry 5 0 batchA) (eid 0 0))] fenced5).
Proof.
  assert (Hs : status fenced5 <> NotMember) by discriminate.
  split; [exact Hs |].
  exact (NotMember_is_never_entered rawUnmarshal _ fenced5 Hs).
Defined.

Lemma Fence_is_not_repeatable_witness :
  proto.FenceRequest_Epoch (fenceReq 5) <= proto.FenceRequest_Epoch (fenceReq 5)
  /\ Fence (WR := list byte) (fenceReq 5)
       (after (Fence (WR := list byte) (fenceReq 5) fresh))
     = {| returned := Err ErrorInvalidEpoch;
          after := after (Fence (WR := list byte) (fenceReq 5) fresh);
          calls := [] |}.
Proof.
  assert (Hle : proto.FenceRequest_Epoch (fenceReq 5)
                <= proto.FenceRequest_Epoch (fenceReq 5)) by (simpl; lia).
  destruct (Fence_is_not_repeatable (WR := list byte) fresh
              (fenceReq 5) (fenceReq 5) Hle) as (_ & H).
  split; [exact Hle | exact H].
Defined.

Lemma Truncate_pairs_with_its_Fence_witness :
  epoch fresh < proto.FenceRequest_Epoch (fenceReq 5)
  /\ returned (Truncate (WR := list byte) (truncateReq 4 (eid 0 0))
                 (after (Fence (WR := list byte) (fenceReq 5) fresh)))
     = Err ErrorInvalidEpoch
  /\ returned (Truncate (WR := list byte) (truncateReq 5 (eid 0 0))
                 (after (Fence (WR := list byte) (fenceReq 5) fresh)))
     = Ok {| proto.TruncateResponse_Epoch := 5;
             proto.TruncateResponse_HeadIndex := eid 0 0 |}.
Proof.
  assert (Hlt : epoch fresh < proto.FenceRequest_Epoch (fenceReq 5))
    by reflexivity.
  destruct (Truncate_pairs_with_its_Fence (WR := list byte) fresh (fenceReq 5)
              (truncateReq 4 (eid 0 0)) Hlt) as (Hne & _).
  destruct (Truncate_pairs_with_its_Fence (WR := list byte) fresh (fenceReq 5)
              (truncateReq 5 (eid 0 0)) Hlt) as (_ & Heq).
  assert (H4 : proto.TruncateRequest_Epoch (truncateReq 4 (eid 0 0))
               <> proto.FenceRequest_Epoch (fenceReq 5)) by discriminate.
  destruct (Heq eq_refl) as (_ & _ & _ & Hret).
  split; [exact Hlt |].
  split; [rewrite (Hne H4); reflexivity | exact Hret].
Defined.

Lemma Truncate_is_not_repeatable_witness :
  status fenced5 = Fenced
  /\ proto.TruncateRequest_Epoch (truncateReq 5 (eid 4 7)) = epoch fenced5
  /\ returned (Truncate (WR := list byte) (truncateReq 5 (eid 4 7))
                 (after (Truncate (WR := list byte)
                           (truncateReq 5 (eid 4 7)) fenced5)))
     = Err ErrorInvalidStatus.
Proof.
  assert (Hs : status fenced5 = Fenced) by reflexivity.
  assert (He : proto.TruncateRequest_Epoch (truncateReq 5 (eid 4 7))
               = epoch fenced5) by reflexivity.
  destruct (Truncate_is_not_repeatable (WR := list byte) fenced5
              (truncateReq 5 (eid 4 7)) (truncateReq 5 (eid 4 7)) Hs He)
    as (_ & H).
  split; [exact Hs |]. split; [exact He |]. rewrite H. reflexivity.
Defined.

Lemma addEntry_append_error_keeps_assignments_witness :
  (status fenced5closed = Follower \/ status fenced5closed = Fenced)
  /\ epoch fenced5closed
     <= proto.AddEntryRequest_Epoch (addReq 6 (entry 6 0 batchA) (eid 0 0))
  /\ returned (addEntry rawUnmarshal
                 (addReq 6 (entry 6 0 batchA) (eid 0 0)) fenced5closed)
     = Err ErrWalClosed
  /\ status (after (addEntry rawUnmarshal
                      (addReq 6 (entry 6 0 batchA) (eid 0 0)) fenced5closed))
     = Follower
  /\ epoch (after (addEntry rawUnmarshal
                     (addReq 6 (entry 6 0 batchA) (eid 0 0)) fenced5closed))
     = 6
  /\ headIndex (after (addEntry rawUnmarshal
                         (addReq 6 (entry 6 0 batchA) (eid 0 0)) fenced5closed))
     = headIndex fenced5closed.
Proof.
  assert (Hs : status fenced5closed = Follower \/ status fenced5closed = Fenced)
    by (right; reflexivity).
  assert (He : epoch fenced5closed
               <= proto.AddEntryRequest_Epoch
                    (addReq 6 (entry 6 0 batchA) (eid 0 0)))
    by (simpl; lia).
  assert (Ha : Append (wal fenced5closed)
                 (proto.AddEntryRequest_Entry
                    (addReq 6 (entry 6 0 batchA) (eid 0 0)))
               = (Some ErrWalClosed, wal fenced5closed)) by reflexivity.
  destruct (addEntry_append_error_keeps_assignments rawUnmarshal fenced5closed
              (addReq 6 (entry 6 0 batchA) (eid 0 0)) _ _ Hs He Ha)
    as (R & S & E & _ & Hd & _).
  repeat split; assumption.
Defined.

Lemma addEntry_apply_error_keeps_assignments_witness :
  (status follower5 = Follower \/ status follower5 = Fenced)
  /\ epoch follower5
     <= proto.AddEntryRequest_Epoch (addReq 5 (entry 5 0 batchBad) (eid 5 0))
  /\ returned (addEntry checkedUnmarshal
                 (addReq 5 (entry 5 0 batchBad) (eid 5 0)) follower5)
     = Err (ErrorOther "proto: cannot parse invalid wire-format data")
  /\ headIndex (after (addEntry checkedUnmarshal
                         (addReq 5 (entry 5 0 batchBad) (eid 5 0)) follower5))
     = mkEntryId 5 0
  /\ commitIndex (after (addEntry checkedUnmarshal
                           (addReq 5 (entry 5 0 batchBad) (eid 5 0)) follower5))
     = mkEntryId 5 0
  /\ db (after (addEntry checkedUnmarshal
                  (addReq 5 (entry 5 0 batchBad) (eid 5 0)) follower5))
     = [batchA; batchB].
Proof.
  assert (Hs : status follower5 = Follower \/ status follower5 = Fenced)
    by (left; reflexivity).
  assert (He : epoch follower5
               <= proto.AddEntryRequest_Epoch
                    (addReq 5 (entry 5 0 batchBad) (eid 5 0)))
    by (simpl; lia).
  assert (Ha : Append (wal follower5)
                 (proto.AddEntryRequest_Entry
                    (addReq 5 (entry 5 0 batchBad) (eid 5 0)))
               = (None,
                  {| log := [entry 4 6 batchA; entry 4 7 batchB;
                             entry 5 0 batchBad];
                     closed := false |})) by reflexivity.
  assert (Hr : ReadSync
                 {| log := [entry 4 6 batchA; entry 4 7 batchB;
                            entry 5 0 batchBad];
                    closed := false |}
                 (commitIndex follower5)
                 (commitOf (addReq 5 (entry 5 0 batchBad) (eid 5 0)))
                 (applyEntry checkedUnmarshal) (db follower5, [])
               = (Some (ErrorOther "proto: cannot parse invalid wire-format data"),
                  ([batchA; batchB], [batchA; batchB]))) by reflexivity.
  destruct (addEntry_apply_error_keeps_assignments checkedUnmarshal follower5
              (addReq 5 (entry 5 0 batchBad) (eid 5 0)) _ _ _ _ Hs He Ha Hr)
    as (R & _ & _ & _ & Hh & Hc & Hd & _).
  repeat split; assumption.
Defined.

Lemma addEntry_redelivery_appends_again_witness :
  returned (addEntry rawUnmarshal
              (addReq 5 (entry 5 0 batchA) (eid 4 7)) follower5)
  = Ok (acceptance (addReq 5 (entry 5 0 batchA) (eid 4 7)))
  /\ hd_error (calls (addEntry rawUnmarshal
                        (addReq 5 (entry 5 0 batchA) (eid 4 7)) committed47))
     = Some (CallWalAppend (entry 5 0 batchA))
  /\ log (wal (after (addEntry rawUnmarshal
                        (addReq 5 (entry 5 0 batchA) (eid 4 7)) committed47)))
     = [entry 4 6 batchA; entry 4 7 batchB; entry 5 0 batchA; entry 5 0 batchA].
Proof.
  assert (Hacc : returned (addEntry rawUnmarshal
                             (addReq 5 (entry 5 0 batchA) (eid 4 7)) follower5)
                 = Ok (acceptance (addReq 5 (entry 5 0 batchA) (eid 4 7))))
    by reflexivity.
  destruct (addEntry_redelivery_appends_again rawUnmarshal follower5
              (addReq 5 (entry 5 0 batchA) (eid 4 7)) Hacc) as (Hhd & _).
  split; [exact Hacc |]. split; [exact Hhd | reflexivity].
Defined.

Lemma collaborator_calls_come_past_the_guards_witness :
  In (CallWalAppend (entry 5 0 batchA))
     (made rawUnmarshal
        (OpAddEntry (addReq 5 (entry 5 0 batchA) (eid 4 7))) follower5)
  /\ In (CallWalTruncateLog (mkEntryId 4 7))
        (made rawUnmarshal (OpTruncate (truncateReq 5 (eid 4 7))) fenced5)
  /\ In (CallDBProcessWrite batchB)
        (made rawUnmarshal
           (OpAddEntry (addReq 5 (entry 5 0 batchA) (eid 4 7))) follower5)
  /\ filter isWalAppend
       (made rawUnmarshal
          (OpAddEntry (addReq 5 (entry 5 0 batchA) (eid 4 7))) follower5)
     = [CallWalAppend (entry 5 0 batchA)].
Proof.
  assert (Ha : In (CallWalAppend (entry 5 0 batchA))
                 (made rawUnmarshal
                    (OpAddEntry (addReq 5 (entry 5 0 batchA) (eid 4 7)))
                    follower5)) by (left; reflexivity).
  assert (Ht : In (CallWalTruncateLog (mkEntryId 4 7))
                 (made rawUnmarshal (OpTruncate (truncateReq 5 (eid 4 7)))
                    fenced5)) by (left; reflexivity).
  assert (Hw : In (CallDBProcessWrite batchB)
                 (made rawUnmarshal
                    (OpAddEntry (addReq 5 (entry 5 0 batchA) (eid 4 7)))
                    follower5))
    by (right; right; right; left; reflexivity).
  destruct (collaborator_calls_come_past_the_guards rawUnmarshal
              (OpAddEntry (addReq 5 (entry 5 0 batchA) (eid 4 7))) follower5)
    as (H1 & _ & H3).
  destruct (collaborator_calls_come_past_the_guards rawUnmarshal
              (OpTruncate (truncateReq 5 (eid 4 7))) fenced5)
    as (_ & H2 & _).
  destruct (H1 _ Ha) as (r1 & _ & _ & _ & _ & Hone).
  destruct (H2 _ Ht) as (r2 & _).
  destruct (H3 _ Hw) as (r3 & _).
  repeat split; assumption.
Defined.

Lemma shardId_and_closing_are_never_assigned_witness :
  NewFollowerController 0 emptyWal (Ok ([] : MemDB)) = Ok fresh
  /\ shardId (run rawUnmarshal (orderlySession ++ [OpClose]) fresh) = 0
  /\ closing (run rawUnmarshal (orderlySession ++ [OpClose]) fresh) = false.
Proof.
  assert (Hn : NewFollowerController 0 emptyWal (Ok ([] : MemDB)) = Ok fresh)
    by reflexivity.
  destruct (shardId_and_closing_are_never_assigned rawUnmarshal
              (orderlySession ++ [OpClose])) as (_ & H).
  destruct (H 0 emptyWal (Ok []) fresh Hn) as (Hs & Hc).
  repeat split; assumption.
Defined.

Lemma fenced_out_leaders_stay_out_witness :
  epoch fresh < proto.FenceRequest_Epoch (fenceReq 5)
  /\ proto.AddEntryRequest_Epoch (addReq 4 (entry 4 0 batchA) (eid 0 0))
     < proto.FenceRequest_Epoch (fenceReq 5)
  /\ returned
       (addEntry rawUnmarshal (addReq 4 (entry 4 0 batchA) (eid 0 0))
          (run rawUnmarshal
             [OpTruncate (truncateReq 5 (eid 0 0));
              OpAddEntry (addReq 5 (entry 5 0 batchA) (eid 0 0))]
             (after (Fence (WR := list byte) (fenceReq 5) fresh))))
     = Ok (rejection (addReq 4 (entry 4 0 batchA) (eid 0 0)))
  /\ returned
       (Truncate (WR := list byte) (truncateReq 4 (eid 0 0))
          (run rawUnmarshal
             [OpTruncate (truncateReq 5 (eid 0 0));
              OpAddEntry (addReq 5 (entry 5 0 batchA) (eid 0 0))]
             (after (Fence (WR := list byte) (fenceReq 5) fresh))))
     = Err ErrorInvalidStatus.
Proof.
  assert (Hlt : epoch fresh < proto.FenceRequest_Epoch (fenceReq 5))
    by reflexivity.
  assert (Ha : proto.AddEntryRequest_Epoch
                 (addReq 4 (entry 4 0 batchA) (eid 0 0))
               < proto.FenceRequest_Epoch (fenceReq 5)) by reflexivity.
  destruct (fenced_out_leaders_stay_out rawUnmarshal fresh (fenceReq 5)
              [OpTruncate (truncateReq 5 (eid 0 0));
               OpAddEntry (addReq 5 (entry 5 0 batchA) (eid 0 0))] Hlt)
    as (H1 & _ & _).
  split; [exact Hlt |]. split; [exact Ha |].
  split; [rewrite (H1 _ Ha); reflexivity | reflexivity].
Defined.

Lemma accessors_read_what_Fence_assigned_witness :
  epoch fresh < proto.FenceRequest_Epoch (fenceReq 5)
  /\ returned (Epoch (WR := list byte)
                 (after (Fence (WR := list byte) (fenceReq 5) fresh))) = Ok 5
  /\ returned (Status' (WR := list byte)
                 (after (Fence (WR := list byte) (fenceReq 5) fresh)))
     = Ok Fenced.
Proof.
  assert (Hlt : epoch fresh < proto.FenceRequest_Epoch (fenceReq 5))
    by reflexivity.
  destruct (accessors_read_what_Fence_assigned (WR := list byte) fresh
              (fenceReq 5) Hlt) as (He & Hs).
  split; [exact Hlt |].
  split; [rewrite He | rewrite Hs]; reflexivity.
Defined.

(** The stream of the orderly session, from the controller its Fence and
    its Truncate leave, until the leader hangs up. *)
Example orderlyStream_is_answered :
  fst (fst (AddEntries rawUnmarshal (ErrorOther "EOF") orderlyStream
              (run rawUnmarshal
                 [OpFence (fenceReq 5); OpTruncate (truncateReq 5 (eid 0 0))]
                 fresh)))
  = {| sent := [ acceptance (addReq 5 (entry 5 0 batchA) (eid 0 0));
                 acceptance (addReq 5 (entry 5 1 batchB) (eid 5 0)) ];
       ended := ErrorOther "EOF" |}.
Proof. reflexivity. Qed.

(** * The cluster client *)

Module ClusterFacts.

Import cluster.

Local Open Scope string_scope.

Section ValidateFacts.

Context {imports : Imports}.

(** X18.  Validate never reports a valid configuration.  It asks for the
    text of the error of each of the five quantities, parsed or not, so it
    panics as soon as one of them parses; and when none parses it returns
    at least the five errors of the quantities. *)
Theorem Validate_never_succeeds (c : Config) :
  (Validate c = Panics
   <-> ParseQuantity (Cpu (ServerResources c)) = None
       \/ ParseQuantity (Memory (ServerResources c)) = None
       \/ ParseQuantity (ServerVolume c) = None
       \/ ParseQuantity (Cpu (CoordinatorResources c)) = None
       \/ ParseQuantity (Memory (CoordinatorResources c)) = None)
  /\ (forall errs, Validate c = Returns errs ->
        (5 <= length errs)%nat /\ errs <> []).
Proof.
  unfold Validate, appendQuantityError, Error, multierr_Append, fmt_Errorf,
    errors_New.
  destruct (ParseQuantity (Cpu (ServerResources c))) as [e1 |];
    [| split; [split; auto | discriminate]].
  destruct (ParseQuantity (Memory (ServerResources c))) as [e2 |];
    [| split; [split; auto | discriminate]].
  destruct (ParseQuantity (ServerVolume c)) as [e3 |];
    [| split; [split; auto | discriminate]].
  destruct (ParseQuantity (Cpu (CoordinatorResources c))) as [e4 |];
    [| split; [split; auto 6 | discriminate]].
  destruct (ParseQuantity (Memory (CoordinatorResources c))) as [e5 |];
    [| split; [split; auto 6 | discriminate]].
  split.
  - split; [discriminate |].
    intros [H | [H | [H | [H | H]]]]; discriminate.
  - intros errs H. injection H as <-.
    rewrite !length_app. simpl.
    split; [lia |].
    destruct (String.eqb (Name c) EmptyString),
             (String.eqb (Namespace c) EmptyString); discriminate.
Qed.

(** X19.  When none of the five quantities parses, Validate returns, in
    this order: that the name must be set, if it is empty; that the
    namespace must be set, if it is empty; and one error for each
    quantity, made of a label and the text of the parse error.  The
    labels of the coordinator's CPU and memory are those of the server's,
    ServerResources.Cpu and ServerResources.Memory. *)
Theorem Validate_reports_every_quantity (c : Config) (e1 e2 e3 e4 e5 : error) :
  ParseQuantity (Cpu (ServerResources c)) = Some e1 ->
  ParseQuantity (Memory (ServerResources c)) = Some e2 ->
  ParseQuantity (ServerVolume c) = Some e3 ->
  ParseQuantity (Cpu (CoordinatorResources c)) = Some e4 ->
  ParseQuantity (Memory (CoordinatorResources c)) = Some e5 ->
  Validate c =
    Returns
      ((if String.eqb (Name c) EmptyString
        then [ErrorOther "name must be set"] else [])
       ++ (if String.eqb (Namespace c) EmptyString
           then [ErrorOther "namespace must be set"] else [])
       ++ [ ErrorOther ("ServerResources.Cpu: " ++ errorText e1);
            ErrorOther ("ServerResources.Memory: " ++ errorText e2);
            ErrorOther ("ServerVolume: " ++ errorText e3);
            ErrorOther ("ServerResources.Cpu: " ++ errorText e4);
            ErrorOther ("ServerResources.Memory: " ++ errorText e5) ])%list.
Proof.
  intros H1 H2 H3 H4 H5.
  unfold Validate, appendQuantityError, Error, multierr_Append, fmt_Errorf,
    errors_New.
  rewrite H1, H2, H3, H4, H5.
  destruct (String.eqb (Name c) EmptyString),
           (String.eqb (Namespace c) EmptyString); reflexivity.
Qed.

End ValidateFacts.

Section ApplyDeleteFacts.

Context {imports : Imports}.

(** Settle the answers of the outside, one call after the other. *)
Ltac answer :=
  match goal with
  | |- context [perform ?s ?r] =>
      let err := fresh "err" in
      let s1 := fresh "s" in
      destruct (perform s r) as [err s1]
  | |- context [PrintAndAppend ?s ?errs ?err ?verb ?what] =>
      let errs1 := fresh "errs" in
      let s1 := fresh "s" in
      destruct (PrintAndAppend s errs err verb what) as [errs1 s1]
  end.

Ltac run_client :=
  unfold requests, Apply, Delete, applyCoordinator, applyServers,
    deleteCoordinator, deleteServers, then_, call, printAndAppend, pure;
  repeat (answer; cbn [snd fst app]).

(** The calls of [Apply] and of [Delete], whatever the outside answers. *)
Lemma Apply_requests {S : Type} {outside : Outside S} (config : Config) (s : S) :
  requests (Apply config s) =
    ([ CallUpsert ServiceAccounts (Namespace config)
         (ServiceAccount (Name config ++ "-coordinator"));
       CallUpsert Roles (Namespace config)
         (RoleObject (role (Name config ++ "-coordinator")));
       CallUpsert RoleBindings (Namespace config)
         (RoleBindingObject
            (roleBinding (Name config ++ "-coordinator") (Namespace config)));
       CallUpsert Deployments (Namespace config)
         (Deployment
            {| DeploymentConfig_PodConfig :=
                 {| PodConfig_Name := Name config ++ "-coordinator";
                    PodConfig_Image := Image config;
                    PodConfig_Command := "coordinator";
                    PodConfig_Args := [];
                    PodConfig_Ports := [MetricsPort];
                    PodConfig_Resources := CoordinatorResources config;
                    PodConfig_VolumeConfig := None |};
               DeploymentConfig_Replicas := 1 |});
       CallUpsert Services (Namespace config)
         (Service
            {| ServiceConfig_Name := Name config ++ "-coordinator";
               ServiceConfig_Headless := false;
               ServiceConfig_Ports := [MetricsPort] |}) ]
     ++ (if MonitoringEnabled config
         then [CallUpsert ServiceMonitors (Namespace config)
                 (ServiceMonitor (Name config ++ "-coordinator"))]
         else [])
     ++ [ CallUpsert ServiceAccounts (Namespace config)
            (ServiceAccount (Name config));
          CallUpsert StatefulSets (Namespace config)
            (StatefulSet
               {| StatefulSetConfig_PodConfig :=
                    {| PodConfig_Name := Name config;
                       PodConfig_Image := Image config;
                       PodConfig_Command := "server";
                       PodConfig_Args := [];
                       PodConfig_Ports := AllPorts;
                       PodConfig_Resources := ServerResources config;
                       PodConfig_VolumeConfig :=
                         Some {| VolumeConfig_Name := "data";
                                 VolumeConfig_Path := "/data";
                                 VolumeConfig_Volume := ServerVolume config |} |};
                  StatefulSetConfig_Replicas := ServerReplicas config;
                  StatefulSetConfig_Volume := ServerVolume config |});
          CallUpsert Services (Namespace config)
            (Service
               {| ServiceConfig_Name := Name config;
                  ServiceConfig_Headless := true;
                  ServiceConfig_Ports := AllPorts |}) ]
     ++ (if MonitoringEnabled config
         then [CallUpsert ServiceMonitors (Namespace config)
                 (ServiceMonitor (Name config))]
         else []))%list.
Proof.
  destruct (MonitoringEnabled config) eqn:Hm; run_client;
    rewrite ?Hm; run_client; reflexivity.
Qed.

Lemma Delete_requests {S : Type} {outside : Outside S} (config : Config) (s : S) :
  requests (Delete config s) =
    ((if MonitoringEnabled config
      then [CallDelete ServiceMonitors (Namespace config) (Name config)]
      else [])
     ++ [ CallDelete Services (Namespace config) (Name config);
          CallDelete StatefulSets (Namespace config) (Name config);
          CallDelete ServiceAccounts (Namespace config) (Name config) ]
     ++ (if MonitoringEnabled config
         then [CallDelete ServiceMonitors (Namespace config)
                 (Name config ++ "-coordinator")]
         else [])
     ++ [ CallDelete Services (Namespace config)
            (Name config ++ "-coordinator");
          CallDelete Deployments (Namespace config)
            (Name config ++ "-coordinator");
          CallDelete RoleBindings (Namespace config)
            (Name config ++ "-coordinator");
          CallDelete Roles (Namespace config)
            (Name config ++ "-coordinator");
          CallDelete ServiceAccounts (Namespace config)
            (Name config ++ "-coordinator") ])%list.
Proof.
  destruct (MonitoringEnabled config) eqn:Hm; run_client;
    rewrite ?Hm; run_client; reflexivity.
Qed.

(** X20.  Apply and Delete go through all their steps whatever the
    cluster answers: the calls they make on the clients are the same for
    any two outsides, eight without monitoring and ten with it, and every
    one of them is in the namespace of the configuration. *)
Theorem client_calls_do_not_depend_on_answers {S S' : Type}
    {outside : Outside S} {outside' : Outside S'} (config : Config)
    (s : S) (s' : S') :
  requests (Apply config s) = requests (Apply config s')
  /\ requests (Delete config s) = requests (Delete config s')
  /\ length (requests (Apply config s))
     = (if MonitoringEnabled config then 10 else 8)%nat
  /\ length (requests (Delete config s))
     = (if MonitoringEnabled config then 10 else 8)%nat
  /\ Forall (fun r => snd (fst (target r)) = Namespace config)
       (requests (Apply config s) ++ requests (Delete config s)).
Proof.
  rewrite !Apply_requests, !Delete_requests.
  destruct (MonitoringEnabled config); cbn [app length];
    repeat split; repeat constructor.
Qed.

(** X21.  Delete takes the cluster down in the reverse of the order in
    which Apply brings it up: the clients, namespaces and names of the
    calls of Delete are those of the calls of Apply, last first. *)
Theorem Delete_reverses_Apply {S S' : Type}
    {outside : Outside S} {outside' : Outside S'} (config : Config)
    (s : S) (s' : S') :
  map target (requests (Delete config s))
  = rev (map target (requests (Apply config s'))).
Proof.
  rewrite Apply_requests, Delete_requests.
  destruct (MonitoringEnabled config); reflexivity.
Qed.

(** X22.  The ServiceMonitors client is called only when monitoring is
    enabled: then Apply and Delete each call it twice, for the coordinator
    and for the servers, and otherwise not at all. *)
Theorem ServiceMonitors_follow_MonitoringEnabled {S : Type}
    {outside : Outside S} (config : Config) (s : S) :
  map target
    (filter (fun r => isServiceMonitors (client r))
       (requests (Apply config s)))
  = (if MonitoringEnabled config
     then [ (ServiceMonitors, Namespace config, Name config ++ "-coordinator");
            (ServiceMonitors, Namespace config, Name config) ]
     else [])
  /\ map target
       (filter (fun r => isServiceMonitors (client r))
          (requests (Delete config s)))
     = (if MonitoringEnabled config
        then [ (ServiceMonitors, Namespace config, Name config);
               (ServiceMonitors, Namespace config,
                Name config ++ "-coordinator") ]
        else []).
Proof.
  rewrite Apply_requests, Delete_requests.
  destruct (MonitoringEnabled config); split; reflexivity.
Qed.

(** X23.  The role binding Apply upserts refers to what Apply has
    upserted before it: its one subject is the service account of the
    coordinator, by name and namespace, and its role reference names the
    role of the coordinator; both were upserted in that namespace earlier
    in the same Apply. *)
Theorem Apply_binds_what_it_upserted {S : Type} {outside : Outside S}
    (config : Config) (s : S) :
  exists before rb later,
    requests (Apply config s)
    = (before
       ++ CallUpsert RoleBindings (Namespace config) (RoleBindingObject rb)
          :: later)%list
    /\ map Subject_Kind (RoleBinding_Subjects rb) = ["ServiceAccount"]
    /\ RoleRef_Kind (RoleBinding_RoleRef rb) = "Role"
    /\ (map (fun sub =>
               CallUpsert ServiceAccounts (Subject_Namespace sub)
                 (ServiceAccount (Subject_Name sub)))
          (RoleBinding_Subjects rb)
        ++ [CallUpsert Roles (Namespace config)
              (RoleObject (role (RoleRef_Name (RoleBinding_RoleRef rb))))])%list
       = before.
Proof.
  rewrite Apply_requests.
  exists [ CallUpsert ServiceAccounts (Namespace config)
             (ServiceAccount (Name config ++ "-coordinator"));
           CallUpsert Roles (Namespace config)
             (RoleObject (role (Name config ++ "-coordinator"))) ].
  exists (roleBinding (Name config ++ "-coordinator") (Namespace config)).
  eexists. repeat split.
Qed.

(** X24.  Apply never reads the shard count and the replication factor:
    two configurations that differ in nothing else lead to the same
    calls.  Delete reads only the name, the namespace and whether
    monitoring is enabled. *)
Theorem shard_settings_are_not_applied {S S' : Type}
    {outside : Outside S} {outside' : Outside S'} (c1 c2 : Config)
    (s : S) (s' : S') :
  Name c1 = Name c2 ->
  Namespace c1 = Namespace c2 ->
  MonitoringEnabled c1 = MonitoringEnabled c2 ->
  requests (Delete c1 s) = requests (Delete c2 s')
  /\ (ServerReplicas c1 = ServerReplicas c2 ->
      ServerResources c1 = ServerResources c2 ->
      ServerVolume c1 = ServerVolume c2 ->
      CoordinatorResources c1 = CoordinatorResources c2 ->
      Image c1 = Image c2 ->
      requests (Apply c1 s) = requests (Apply c2 s')).
Proof.
  intros Hn Hs Hm.
  rewrite !Apply_requests, !Delete_requests, Hn, Hs, Hm.
  split; [reflexivity |].
  intros -> -> -> -> ->. reflexivity.
Qed.

End ApplyDeleteFacts.

(** ** The client at work *)

Lemma Validate_never_succeeds_witness :
  Validate (imports := testImports) unsetConfig
  = Returns
      [ ErrorOther "namespace must be set";
        ErrorOther
          "ServerResources.Cpu: quantities must match the regular expression";
        ErrorOther
          "ServerResources.Memory: quantities must match the regular expression";
        ErrorOther
          "ServerVolume: quantities must match the regular expression";
        ErrorOther
          "ServerResources.Cpu: quantities must match the regular expression";
        ErrorOther
          "ServerResources.Memory: quantities must match the regular expression" ]
  /\ Validate (imports := testImports) NewConfig = Panics.
Proof.
  destruct (Validate_never_succeeds (imports := testImports) unsetConfig)
    as (_ & Hret).
  destruct (Validate_never_succeeds (imports := testImports) NewConfig)
    as (Hpanic & _).
  destruct (Hret _ eq_refl) as (_ & _).
  split; [reflexivity |].
  apply Hpanic. left. reflexivity.
Defined.

Lemma Validate_reports_every_quantity_witness :
  ParseQuantity (Imports := testImports) (Cpu (ServerResources unsetConfig))
  = Some (ErrorOther "quantities must match the regular expression")
  /\ length
       match Validate (imports := testImports) unsetConfig with
       | Returns errs => errs
       | Panics => []
       end = 6%nat.
Proof.
  pose proof (Validate_reports_every_quantity (imports := testImports)
                unsetConfig _ _ _ _ _ eq_refl eq_refl eq_refl eq_refl eq_refl)
    as H.
  split; [reflexivity |]. rewrite H. reflexivity.
Defined.

Lemma shard_settings_are_not_applied_witness :
  Name unsetConfig = Name reshardedConfig
  /\ ShardCount unsetConfig <> ShardCount reshardedConfig
  /\ requests (Apply (outside := obliging) unsetConfig [])
     = requests (Apply (outside := obliging) reshardedConfig [])
  /\ requests (Delete (outside := obliging) unsetConfig [])
     = requests (Delete (outside := obliging) reshardedConfig []).
Proof.
  destruct (shard_settings_are_not_applied (outside := obliging)
              (outside' := obliging) unsetConfig reshardedConfig [] []
              eq_refl eq_refl eq_refl) as (Hd & Ha).
  split; [reflexivity |]. split; [discriminate |].
  split; [exact (Ha eq_refl eq_refl eq_refl eq_refl eq_refl) | exact Hd].
Defined.

End ClusterFacts.
